(** * docsee: the tree builder and the statistics aggregator of [docsee.ts]

    A shallow embedding of [fetchRepository], [traverseRepository] and
    [analyzeRepository], and the properties of the traversal and of the
    aggregated statistics.

    - Names, paths, URLs and messages are byte strings ([string]): the
      program only concatenates them, compares them and tests ASCII
      suffixes on them.
    - The utf16 of a fetched body is a sequence of UTF-16 code units
      ([utf16]), because the program measures it ([content.length]) and
      splits it on the regular expression [\s+].
    - A [Record<string, unknown>] is the list of its own enumerable
      properties, in the order in which [for ... in] visits them.
    - [fetch] and [console.error] are effects: a computation threads a
      [world] (the requests made so far and the lines written to the
      console) and ends in a value or in a thrown exception. *)

From Stdlib Require Import String Ascii Bool Arith NArith Lia List Permutation.
Import ListNotations.
Local Open Scope string_scope.
Local Open Scope list_scope.

(** ** Text: JavaScript strings as UTF-16 code units *)

Definition code_unit := N.
Definition utf16 := list code_unit.

(** The characters matched by [\s] and removed by [String.prototype.trim]:
    ECMAScript's WhiteSpace and LineTerminator productions. *)
Definition isWhiteSpace (c : code_unit) : bool :=
  ((c =? 0x09) || (c =? 0x0A) || (c =? 0x0B) || (c =? 0x0C) || (c =? 0x0D)
   || (c =? 0x20) || (c =? 0xA0) || (c =? 0x1680)
   || ((0x2000 <=? c) && (c <=? 0x200A))
   || (c =? 0x2028) || (c =? 0x2029) || (c =? 0x202F) || (c =? 0x205F)
   || (c =? 0x3000) || (c =? 0xFEFF))%N.

Fixpoint trimStart (s : utf16) : utf16 :=
  match s with
  | [] => []
  | c :: rest => if isWhiteSpace c then trimStart rest else s
  end.

Definition trimEnd (s : utf16) : utf16 := rev (trimStart (rev s)).

(** [content.trim()] *)
Definition trim (s : utf16) : utf16 := trimEnd (trimStart s).

(** [s.split(/\s+/)]: the string is scanned from the left; where the
    expression matches, the piece collected so far is pushed and the
    greedy match swallows the whole run of white space; the piece that
    remains at the end is always pushed, so the result is never empty.
    [in_sep] says that the scan is inside a match. *)
Fixpoint split_scan (in_sep : bool) (piece : utf16) (s : utf16) : list utf16 :=
  match s with
  | [] => [piece]
  | c :: rest =>
      if isWhiteSpace c then
        if in_sep then split_scan true [] rest
        else piece :: split_scan true [] rest
      else split_scan false (piece ++ [c]) rest
  end.

Definition split_whitespace (s : utf16) : list utf16 := split_scan false [] s.

Definition is_empty_text (s : utf16) : bool :=
  match s with [] => true | _ :: _ => false end.

(** [words[0] === ""] *)
Definition first_is_empty (words : list utf16) : bool :=
  match words with
  | w :: _ => is_empty_text w
  | [] => false
  end.

(** The two statements
    [const words = content.trim().split(/\s+/);]
    [stats.wordCount += words[0] === "" ? 0 : words.length;]
    give the number added to [wordCount]. *)
Definition countWords (content : utf16) : nat :=
  let words := split_whitespace (trim content) in
  if first_is_empty words then 0 else length words.

(** *** The measures the specification speaks of *)

(** The white-space delimited tokens of a utf16: its maximal runs of
    characters that are not white space. *)
Fixpoint tokens_from (cur : utf16) (s : utf16) : list utf16 :=
  match s with
  | [] => if is_empty_text cur then [] else [cur]
  | c :: rest =>
      if isWhiteSpace c
      then (if is_empty_text cur then [] else [cur]) ++ tokens_from [] rest
      else tokens_from (cur ++ [c]) rest
  end.

Definition tokens (s : utf16) : list utf16 := tokens_from [] s.

(** The specification's word count: the number of tokens of the trimmed
    body, a body that is empty after trimming counting zero. *)
Definition spec_word_count (body : utf16) : nat :=
  if is_empty_text (trim body) then 0 else length (tokens (trim body)).

Definition is_high_surrogate (c : code_unit) : bool :=
  ((0xD800 <=? c) && (c <=? 0xDBFF))%N.
Definition is_low_surrogate (c : code_unit) : bool :=
  ((0xDC00 <=? c) && (c <=? 0xDFFF))%N.

(** The byte length of a utf16, that is the length of its UTF-8 encoding:
    one byte below U+0080, two below U+0800, four for a surrogate pair,
    three otherwise (a lone surrogate is encoded as U+FFFD). *)
Fixpoint byteLength (s : utf16) : nat :=
  match s with
  | [] => 0
  | c :: rest =>
      if (c <? 0x80)%N then 1 + byteLength rest
      else if (c <? 0x800)%N then 2 + byteLength rest
      else if is_high_surrogate c then
        match rest with
        | d :: rest' =>
            if is_low_surrogate d then 4 + byteLength rest'
            else 3 + byteLength rest
        | [] => 3
        end
      else 3 + byteLength rest
  end.

Definition is_ascii (s : utf16) : Prop := Forall (fun c => (c < 0x80)%N) s.

(** ASCII utf16, for examples: the code units of a byte string. *)
Fixpoint text_of_string (s : string) : utf16 :=
  match s with
  | EmptyString => []
  | String a rest => N_of_ascii a :: text_of_string rest
  end.

(** ** Values, listing entries and responses *)

(** What a [catch] clause can receive: an [Error] object with its
    [message], or any other value, known by its rendering [String(error)]. *)
Inductive thrown :=
| ErrorObject (message : string)
| NonError (rendering : string).

(** [interface GitHub] *)
Module GitHub.
Inductive entry_type := file | dir.
Record t := {
  name : string;
  path : string;
  type : entry_type;
  download_url : option string;
  url : string
}.
End GitHub.
Definition GitHub := GitHub.t.

(** [interface Analysis]. The counters only grow by additions of natural
    numbers, which JavaScript's numbers carry out exactly below 2^53: they
    are natural numbers here. *)
Record Analysis := {
  folderCount : nat;
  fileCount : nat;
  wordCount : nat;
  totalSize : nat
}.

(** The values a document tree holds: a download URL, [null], or a nested
    [Record<string, unknown>]. *)
#[local] Unset Elimination Schemes.
Inductive value :=
| VString (s : string)
| VNull
| VObject (props : list (string * value)).
#[local] Set Elimination Schemes.

(** [Record<string, unknown>] *)
Definition Record_ := list (string * value).

(** The [typeof] operator: [typeof null] is ["object"]. *)
Definition typeof (v : value) : string :=
  match v with
  | VString _ => "string"
  | VNull => "object"
  | VObject _ => "object"
  end.

(** The string held by a value whose [typeof] is ["string"]. *)
Definition string_of (v : value) : string :=
  match v with
  | VString s => s
  | _ => ""
  end.

(** The value stored for [item.download_url : string | null]. *)
Definition value_of_url (u : option string) : value :=
  match u with
  | Some s => VString s
  | None => VNull
  end.

(** What [fetch] hands back once it resolves: the fields and methods of
    the response that the program uses. [json()] and [text()] read the
    body, and either can reject. *)
Module Response.
Record t := {
  ok : bool;
  statusText : string;
  json : thrown + list GitHub;
  text : thrown + utf16
}.
End Response.
Definition Response := Response.t.

Inductive fetch_result :=
| Rejects (e : thrown)
| Resolves (r : Response).

(** ** Objects as ordered property lists *)

Definition is_digit (a : ascii) : bool :=
  ((48 <=? nat_of_ascii a) && (nat_of_ascii a <=? 57))%nat.

Fixpoint digits_value (acc : N) (s : string) : option N :=
  match s with
  | EmptyString => Some acc
  | String a rest =>
      if is_digit a
      then digits_value (acc * 10 + (N_of_ascii a - 48))%N rest
      else None
  end.

(** A key is an array index when it is the canonical decimal form of an
    integer below 2^32 - 1. *)
Definition array_index (k : string) : option N :=
  match k with
  | EmptyString => None
  | String a rest =>
      if (Ascii.eqb a "0" && negb (String.eqb rest ""))%bool then None
      else match digits_value 0 k with
           | Some n => if (n <? 4294967295)%N then Some n else None
           | None => None
           end
  end.

(** [tree[key]] on own properties. *)
Fixpoint get (o : Record_) (k : string) : option value :=
  match o with
  | [] => None
  | (k', v) :: rest => if String.eqb k' k then Some v else get rest k
  end.

Definition has_key (o : Record_) (k : string) : bool :=
  match get o k with Some _ => true | None => false end.

Fixpoint replace_value (o : Record_) (k : string) (v : value) : Record_ :=
  match o with
  | [] => []
  | (k', v') :: rest =>
      if String.eqb k' k then (k', v) :: rest
      else (k', v') :: replace_value rest k v
  end.

(** A new array-index key goes among the array indices, in ascending
    numeric order, before every other key. *)
Fixpoint insert_index (o : Record_) (i : N) (k : string) (v : value) : Record_ :=
  match o with
  | [] => [(k, v)]
  | (k', v') :: rest =>
      match array_index k' with
      | Some j =>
          if (j <? i)%N then (k', v') :: insert_index rest i k v
          else (k, v) :: o
      | None => (k, v) :: o
      end
  end.

(** [result[k] = v]: an existing property keeps its place and takes the
    new value; a new property is created, after the existing ones unless
    its key is an array index. The objects are plain maps from keys to
    values: the accessor [__proto__] that an object literal inherits is
    outside the model (no name that ends in [.md] is that key). *)
Definition set (o : Record_) (k : string) (v : value) : Record_ :=
  if has_key o k then replace_value o k v
  else match array_index k with
       | Some i => insert_index o i k v
       | None => o ++ [(k, v)]
       end.

(** [name.endsWith(suffix)] *)
Definition endsWith (s suffix : string) : bool :=
  let n := String.length s in
  let m := String.length suffix in
  if (m <=? n)%nat then String.eqb (substring (n - m) m s) suffix else false.

(** ** Effects *)

Record request := {
  req_url : string;
  req_headers : list (string * string)
}.

Record world := {
  requests : list request;
  console : list string
}.

(** How a computation ends. [OutOfFuel] belongs to the model only: the
    recursion of [traverseRepository] is bounded by a counter. *)
Inductive outcome (A : Type) :=
| Returned (a : A)
| Thrown (e : thrown)
| OutOfFuel.
Arguments Returned {A} a.
Arguments Thrown {A} e.
Arguments OutOfFuel {A}.

Definition M (A : Type) : Type := world -> outcome A * world.

Definition ret {A} (a : A) : M A := fun w => (Returned a, w).

Definition bind {A B} (m : M A) (k : A -> M B) : M B :=
  fun w =>
    match m w with
    | (Returned a, w') => k a w'
    | (Thrown e, w') => (Thrown e, w')
    | (OutOfFuel, w') => (OutOfFuel, w')
    end.

Definition throw {A} (e : thrown) : M A := fun w => (Thrown e, w).

Definition out_of_fuel {A} : M A := fun w => (OutOfFuel, w).

(** [try { body } catch (error) { handler }] *)
Definition try_catch {A} (body : M A) (handler : thrown -> M A) : M A :=
  fun w =>
    match body w with
    | (Thrown e, w') => handler e w'
    | r => r
    end.

(** A promise that a method of the response returned, awaited. *)
Definition await {A} (p : thrown + A) : M A :=
  match p with
  | inl e => throw e
  | inr a => ret a
  end.

Definition console_error (line : string) : M unit :=
  fun w => (Returned tt, {| requests := requests w; console := console w ++ [line] |}).

Declare Scope monad_scope.
Delimit Scope monad_scope with monad.
Notation "x <- m ;; k" := (bind m (fun x => k))
  (at level 61, m at next level, right associativity) : monad_scope.
Notation "m ;; k" := (bind m (fun _ => k))
  (at level 61, right associativity) : monad_scope.
Local Open Scope monad_scope.

Definition stats0 : Analysis :=
  {| folderCount := 0; fileCount := 0; wordCount := 0; totalSize := 0 |}.

Definition add_folderCount (n : nat) (s : Analysis) : Analysis :=
  {| folderCount := folderCount s + n; fileCount := fileCount s;
     wordCount := wordCount s; totalSize := totalSize s |}.
Definition add_fileCount (n : nat) (s : Analysis) : Analysis :=
  {| folderCount := folderCount s; fileCount := fileCount s + n;
     wordCount := wordCount s; totalSize := totalSize s |}.
Definition add_wordCount (n : nat) (s : Analysis) : Analysis :=
  {| folderCount := folderCount s; fileCount := fileCount s;
     wordCount := wordCount s + n; totalSize := totalSize s |}.
Definition add_totalSize (n : nat) (s : Analysis) : Analysis :=
  {| folderCount := folderCount s; fileCount := fileCount s;
     wordCount := wordCount s; totalSize := totalSize s + n |}.

(** Field by field addition of two records of counters. *)
Definition merge (a b : Analysis) : Analysis :=
  {| folderCount := folderCount a + folderCount b;
     fileCount := fileCount a + fileCount b;
     wordCount := wordCount a + wordCount b;
     totalSize := totalSize a + totalSize b |}.

Section Program.

(** The network: what a request resolves to. *)
Variable network : request -> fetch_result.

(** [await fetch(url, { headers })] *)
Definition fetch (url : string) (headers : list (string * string)) : M Response :=
  fun w =>
    let rq := {| req_url := url; req_headers := headers |} in
    let w' := {| requests := requests w ++ [rq]; console := console w |} in
    match network rq with
    | Rejects e => (Thrown e, w')
    | Resolves r => (Returned r, w')
    end.

(** *** [analyzeRepository] *)

(** The branch [typeof value === "string"]. *)
Definition analyze_file (key : string) (value : string) (stats : Analysis)
  : M Analysis :=
  let stats := add_fileCount 1 stats in
  try_catch
    (response <- fetch value [] ;;
     if Response.ok response then
       content <- await (Response.text response) ;;
       let stats := add_totalSize (length content) stats in
       let stats := add_wordCount (countWords content) stats in
       ret stats
     else ret stats)
    (fun error =>
       match error with
       | ErrorObject message =>
           console_error ("⛔ Error fetching file " ++ key ++ ": " ++ message)
       | NonError rendering =>
           console_error ("⛔ Error fetching file " ++ key ++ ": " ++ rendering)
       end ;;
       ret stats).

(** The branch [typeof value === "object"], [analyze] being the
    recursive call. *)
Definition analyze_folder (analyze : value -> M Analysis) (value : value)
    (stats : Analysis) : M Analysis :=
  let stats := add_folderCount 1 stats in
  subStats <- analyze value ;;
  let stats := add_folderCount (folderCount subStats) stats in
  let stats := add_fileCount (fileCount subStats) stats in
  let stats := add_wordCount (wordCount subStats) stats in
  let stats := add_totalSize (totalSize subStats) stats in
  ret stats.

(** One turn of the loop [for (const key in tree)]. *)
Definition analyze_entry (analyze : value -> M Analysis)
    (key : string) (value : value) (stats : Analysis) : M Analysis :=
  if String.eqb (typeof value) "string" then
    analyze_file key (string_of value) stats
  else if String.eqb (typeof value) "object" then
    analyze_folder analyze value stats
  else ret stats.

Definition analyze_loop (analyze : value -> M Analysis)
  : Record_ -> Analysis -> M Analysis :=
  fix loop (entries : Record_) (stats : Analysis) : M Analysis :=
    match entries with
    | [] => ret stats
    | (key, value) :: rest =>
        stats' <- analyze_entry analyze key value stats ;;
        loop rest stats'
    end.

(** [for ... in] visits the properties of an object and nothing at all
    when the operand is [null]. The function is applied to objects and,
    through the second branch of [analyze_entry], to [null]; it is never
    applied to a string. *)
Fixpoint analyzeRepository (tree : value) : M Analysis :=
  match tree with
  | VObject props => analyze_loop analyzeRepository props stats0
  | VNull => ret stats0
  | VString _ => ret stats0
  end.

(** *** [fetchRepository] and [traverseRepository] *)

Definition apiURL_of (owner repo path : string) : string :=
  "https://api.github.com/repos/" ++ owner ++ "/" ++ repo ++ "/contents/" ++ path.

Definition listing_headers (token : string) : list (string * string) :=
  [("Authorization", ("token " ++ token)%string);
   ("Accept", "application/vnd.github.v3+json")].

Definition fetchRepository (token owner repo path : string) : M (list GitHub) :=
  let apiURL := apiURL_of owner repo path in
  response <- fetch apiURL (listing_headers token) ;;
  if negb (Response.ok response) then
    throw (ErrorObject ("⛔ Failed to fetch " ++ apiURL ++ ": "
                        ++ Response.statusText response))
  else await (Response.json response).

(** [item.name.endsWith(".md") || item.name.endsWith(".mdx")] *)
Definition is_markdown (name : string) : bool :=
  endsWith name ".md" || endsWith name ".mdx".

(** One turn of the loop [for (const item of items)], [traverse] being
    the recursive call on a path. *)
Definition traverse_item (traverse : string -> M Record_)
    (item : GitHub) (result : Record_) : M Record_ :=
  match GitHub.type item with
  | GitHub.dir =>
      subtree <- traverse (GitHub.path item) ;;
      ret (set result (GitHub.name item) (VObject subtree))
  | GitHub.file =>
      if is_markdown (GitHub.name item) then
        ret (set result (GitHub.name item) (value_of_url (GitHub.download_url item)))
      else ret result
  end.

Definition traverse_items (traverse : string -> M Record_)
  : list GitHub -> Record_ -> M Record_ :=
  fix loop (items : list GitHub) (result : Record_) : M Record_ :=
    match items with
    | [] => ret result
    | item :: rest =>
        result' <- traverse_item traverse item result ;;
        loop rest result'
    end.

(** The recursion follows the listings, which nothing bounds: [fuel]
    bounds its depth. *)
Fixpoint traverseRepository (fuel : nat) (token owner repo path : string)
  : M Record_ :=
  match fuel with
  | 0 => out_of_fuel
  | S fuel' =>
      items <- fetchRepository token owner repo path ;;
      traverse_items (traverseRepository fuel' token owner repo) items []
  end.

(** *** What a leaf contributes *)

Definition body_request (url : string) : request :=
  {| req_url := url; req_headers := [] |}.

(** The body of a successful fetch: the request resolves, the status is
    a success and the text can be read. *)
Definition fetched (url : string) : option utf16 :=
  match network (body_request url) with
  | Rejects _ => None
  | Resolves r =>
      if Response.ok r then
        match Response.text r with
        | inr content => Some content
        | inl _ => None
        end
      else None
  end.

(** The exception that the [catch] clause receives, if any. *)
Definition caught (url : string) : option thrown :=
  match network (body_request url) with
  | Rejects e => Some e
  | Resolves r =>
      if Response.ok r then
        match Response.text r with
        | inr _ => None
        | inl e => Some e
        end
      else None
  end.

Definition words_at (url : string) : nat :=
  match fetched url with Some content => countWords content | None => 0 end.

Definition size_at (url : string) : nat :=
  match fetched url with Some content => length content | None => 0 end.

Definition error_line (key : string) (e : thrown) : string :=
  match e with
  | ErrorObject message => "⛔ Error fetching file " ++ key ++ ": " ++ message
  | NonError rendering => "⛔ Error fetching file " ++ key ++ ": " ++ rendering
  end.

(** The lines that an aggregation writes to the console. *)
Fixpoint reported (tree : value) : list string :=
  match tree with
  | VObject props =>
      flat_map (fun '(key, v) =>
                  match v with
                  | VString u =>
                      match caught u with
                      | Some e => [error_line key e]
                      | None => []
                      end
                  | _ => reported v
                  end) props
  | _ => []
  end.

End Program.

(** ** Measures of a document tree *)

Definition is_subtree (v : value) : nat :=
  match v with VObject _ => 1 | _ => 0 end.

Definition is_null_leaf (v : value) : nat :=
  match v with VNull => 1 | _ => 0 end.

(** The number of Subtree nodes at any depth below the root. *)
Fixpoint count_subtrees (tree : value) : nat :=
  match tree with
  | VObject props =>
      list_sum (map (fun '(_, v) => is_subtree v + count_subtrees v) props)
  | _ => 0
  end.

(** The number of Leaf entries whose content URL is [null]. *)
Fixpoint count_null_leaves (tree : value) : nat :=
  match tree with
  | VObject props =>
      list_sum (map (fun '(_, v) => is_null_leaf v + count_null_leaves v) props)
  | _ => 0
  end.

(** The content URLs of the Leaf entries whose URL is not [null], in the
    order of the traversal, one occurrence per Leaf. *)
Fixpoint leaf_urls (tree : value) : list string :=
  match tree with
  | VObject props =>
      flat_map (fun '(_, v) =>
                  match v with
                  | VString u => [u]
                  | _ => leaf_urls v
                  end) props
  | _ => []
  end.

(** [reorder t t']: [t'] is [t] with the entries of some of its mappings,
    at any depth, put in another order. *)
Inductive reorder : value -> value -> Prop :=
| reorder_refl v : reorder v v
| reorder_here ps qs :
    Permutation ps qs -> reorder (VObject ps) (VObject qs)
| reorder_inside ps k v v' qs :
    reorder v v' ->
    reorder (VObject (ps ++ (k, v) :: qs)) (VObject (ps ++ (k, v') :: qs))
| reorder_trans t1 t2 t3 :
    reorder t1 t2 -> reorder t2 t3 -> reorder t1 t3.

(** The statistics and the final world of an aggregation. *)
Definition stats_of (network : request -> fetch_result) (tree : value) : Analysis :=
  {| folderCount := count_subtrees tree + count_null_leaves tree;
     fileCount := length (leaf_urls tree);
     wordCount := list_sum (map (words_at network) (leaf_urls tree));
     totalSize := list_sum (map (size_at network) (leaf_urls tree)) |}.

Definition after_analysis (network : request -> fetch_result) (tree : value)
    (w : world) : world :=
  {| requests := requests w ++ map body_request (leaf_urls tree);
     console := console w ++ reported network tree |}.

Definition world0 : world := {| requests := []; console := [] |}.

(** The number of Leaf entries whose content URL is not [null]. *)
Definition is_url_leaf (v : value) : nat :=
  match v with VString _ => 1 | _ => 0 end.

Fixpoint count_url_leaves (tree : value) : nat :=
  match tree with
  | VObject props =>
      list_sum (map (fun '(_, v) => is_url_leaf v + count_url_leaves v) props)
  | _ => 0
  end.

(** The ways in which the fetch of a body fails: the request is rejected
    (a network error), the status is not a success, or the body cannot be
    read. *)
Inductive fetch_fails (network : request -> fetch_result) (url : string) : Prop :=
| fails_rejected e :
    network (body_request url) = Rejects e -> fetch_fails network url
| fails_status r :
    network (body_request url) = Resolves r -> Response.ok r = false ->
    fetch_fails network url
| fails_body r e :
    network (body_request url) = Resolves r -> Response.ok r = true ->
    Response.text r = inl e -> fetch_fails network url.

(** The bodies fetched with success, one per Leaf, in traversal order. *)
Definition bodies (network : request -> fetch_result) (tree : value) : list utf16 :=
  flat_map (fun u => match fetched network u with
                     | Some content => [content]
                     | None => []
                     end) (leaf_urls tree).

(** The statistics returned by an aggregation that starts in the empty
    world, if it returns. *)
Definition statistics (network : request -> fetch_result) (tree : value)
  : option Analysis :=
  match analyzeRepository network tree world0 with
  | (Returned stats, _) => Some stats
  | _ => None
  end.

(** ** Queries to the listing API *)

(** The request that [fetchRepository] sends for a path. *)
Definition listing_request (token owner repo path : string) : request :=
  {| req_url := apiURL_of owner repo path; req_headers := listing_headers token |}.

(** The listing API signals a failure [e] for a query: the request is
    rejected, or the status is not a success, in which case the failure
    carries the status text, or the body is not the JSON expected. *)
Inductive listing_fails (network : request -> fetch_result) (rq : request)
  : thrown -> Prop :=
| listing_rejected e :
    network rq = Rejects e -> listing_fails network rq e
| listing_status r :
    network rq = Resolves r -> Response.ok r = false ->
    listing_fails network rq
      (ErrorObject ("⛔ Failed to fetch " ++ req_url rq ++ ": " ++ Response.statusText r))
| listing_unreadable r e :
    network rq = Resolves r -> Response.ok r = true ->
    Response.json r = inl e -> listing_fails network rq e.

(** The listing API answers a query with the entries [items]. *)
Definition listing_succeeds (network : request -> fetch_result) (rq : request)
    (items : list GitHub) : Prop :=
  exists r, network rq = Resolves r /\ Response.ok r = true
            /\ Response.json r = inr items.

Definition add_requests (qs : list request) (w : world) : world :=
  {| requests := requests w ++ qs; console := console w |}.

(** The outcome of a traversal that starts in the empty world, and the
    queries that it makes. *)
Definition tree_built (network : request -> fetch_result) (fuel : nat)
    (token owner repo path : string) : outcome Record_ :=
  fst (traverseRepository network fuel token owner repo path world0).

Definition queries (network : request -> fetch_result) (fuel : nat)
    (token owner repo path : string) : list request :=
  requests (snd (traverseRepository network fuel token owner repo path world0)).

(** [uniform_run network m r qs]: from any world, the computation [m] ends
    in [r] after the queries [qs] and leaves the console as it was; and if
    the listing API signals a failure for one of the queries, [r] is that
    failure, thrown. *)
Definition uniform_run {A} (network : request -> fetch_result) (m : M A)
    (r : outcome A) (qs : list request) : Prop :=
  (forall w, m w = (r, add_requests qs w))
  /\ (forall rq e, In rq qs -> listing_fails network rq e -> r = Thrown e).

(** A suffix of a string, character for character. *)
Definition has_suffix (suffix s : string) : Prop :=
  exists front : string, s = (front ++ suffix)%string.

(** The two calls of [main] that make the core of the program:
    [const tree = await traverseRepository(token, owner, repo);]
    [const stats = await analyzeRepository(tree);] *)
Definition traverse_then_analyze (network : request -> fetch_result) (fuel : nat)
    (token owner repo : string) : M (Record_ * Analysis) :=
  tree <- traverseRepository network fuel token owner repo "" ;;
  stats <- analyzeRepository network (VObject tree) ;;
  ret (tree, stats).

(** ** Sample repositories *)

Definition entry (name path : string) (type : GitHub.entry_type)
    (download_url : option string) : GitHub :=
  {| GitHub.name := name; GitHub.path := path; GitHub.type := type;
     GitHub.download_url := download_url;
     GitHub.url := apiURL_of "owner" "repo" path |}.

Definition listing_response (items : list GitHub) : fetch_result :=
  Resolves {| Response.ok := true; Response.statusText := "OK";
              Response.json := inr items; Response.text := inr [] |}.

Definition body_response (content : utf16) : fetch_result :=
  Resolves {| Response.ok := true; Response.statusText := "OK";
              Response.json := inl (ErrorObject "Unexpected end of JSON input");
              Response.text := inr content |}.

Definition status_response (statusText : string) : fetch_result :=
  Resolves {| Response.ok := false; Response.statusText := statusText;
              Response.json := inr []; Response.text := inr [] |}.

Definition raw (path : string) : string :=
  "https://raw.githubusercontent.com/owner/repo/main/" ++ path.

(** The root holds [a.md] ("hello world") and the directory [docs], which
    holds [b.md] (an empty body) and [c.txt]; [b_md] is the answer to the
    request for the body of [b.md]. *)
Definition sample_network (b_md : fetch_result) (rq : request) : fetch_result :=
  let u := req_url rq in
  if String.eqb u (apiURL_of "owner" "repo" "") then
    listing_response [entry "a.md" "a.md" GitHub.file (Some (raw "a.md"));
                      entry "docs" "docs" GitHub.dir None]
  else if String.eqb u (apiURL_of "owner" "repo" "docs") then
    listing_response [entry "b.md" "docs/b.md" GitHub.file (Some (raw "docs/b.md"));
                      entry "c.txt" "docs/c.txt" GitHub.file (Some (raw "docs/c.txt"))]
  else if String.eqb u (raw "a.md") then body_response (text_of_string "hello world")
  else if String.eqb u (raw "docs/b.md") then b_md
  else status_response "Not Found".

Definition sample_tree : value :=
  VObject [("a.md", VString (raw "a.md"));
           ("docs", VObject [("b.md", VString (raw "docs/b.md"))])].

(** The same two entries at the root, in the other order. *)
Definition sample_tree_swapped : value :=
  VObject [("docs", VObject [("b.md", VString (raw "docs/b.md"))]);
           ("a.md", VString (raw "a.md"))].

(** A tree whose only entry is a Leaf without content URL. *)
Definition null_leaf_tree : value := VObject [("a.md", VNull)].

(** A directory with a Leaf without content URL next to a Leaf with one. *)
Definition mixed_tree : value :=
  VObject [("docs", VObject [("b.md", VNull)]); ("a.md", VString (raw "a.md"))].

(** A body of one character outside ASCII: U+00E9, two bytes in UTF-8. *)
Definition accent_body : utf16 := [0xE9%N].

Definition accent_network (rq : request) : fetch_result :=
  body_response accent_body.

Definition accent_tree : value := VObject [("a.md", VString (raw "a.md"))].

(** A request for a body that the network rejects. *)
Definition network_down : fetch_result := Rejects (ErrorObject "network down").

(** A network on which every request is rejected. *)
Definition offline_network (rq : request) : fetch_result := network_down.

(** A network on which every request is answered with the status
    [Not Found]. *)
Definition not_found_network (rq : request) : fetch_result :=
  status_response "Not Found".

(** The root holds the directory [assets], whose only entry is [logo.png],
    and the files [guide.md] and [readme.MD]; the listing of [drafts]
    is refused. *)
Definition assets_network (rq : request) : fetch_result :=
  let u := req_url rq in
  if String.eqb u (apiURL_of "owner" "repo" "") then
    listing_response [entry "assets" "assets" GitHub.dir None;
                      entry "guide.md" "guide.md" GitHub.file (Some (raw "guide.md"));
                      entry "readme.MD" "readme.MD" GitHub.file (Some (raw "readme.MD"))]
  else if String.eqb u (apiURL_of "owner" "repo" "assets") then
    listing_response [entry "logo.png" "assets/logo.png" GitHub.file
                        (Some (raw "assets/logo.png"))]
  else status_response "Not Found".

(** The root holds [a.md] and the directory [drafts], whose listing is
    refused with the status [Forbidden]. *)
Definition refused_network (rq : request) : fetch_result :=
  let u := req_url rq in
  if String.eqb u (apiURL_of "owner" "repo" "") then
    listing_response [entry "a.md" "a.md" GitHub.file (Some (raw "a.md"));
                      entry "drafts" "drafts" GitHub.dir None;
                      entry "z.md" "z.md" GitHub.file (Some (raw "z.md"))]
  else status_response "Forbidden".

(** ** Shapes of a document tree *)

(** The keys of every mapping of the tree, at any depth, are distinct. *)
Inductive well_keyed : value -> Prop :=
| well_keyed_string s : well_keyed (VString s)
| well_keyed_null : well_keyed VNull
| well_keyed_object props :
    NoDup (map fst props) ->
    (forall k v, In (k, v) props -> well_keyed v) ->
    well_keyed (VObject props).

(** Every Leaf of the tree, at any depth, has a key that ends in [.md] or
    [.mdx]. *)
Inductive leaves_are_markdown : value -> Prop :=
| leaves_string s : leaves_are_markdown (VString s)
| leaves_null : leaves_are_markdown VNull
| leaves_object props :
    (forall k v, In (k, v) props -> is_subtree v = 0 -> is_markdown k = true) ->
    (forall k v, In (k, v) props -> leaves_are_markdown v) ->
    leaves_are_markdown (VObject props).

(** [leaf_at tree key url]: at some depth, the tree has the Leaf [key]
    with the content URL [url]. *)
Inductive leaf_at : value -> string -> string -> Prop :=
| leaf_here props key url :
    In (key, VString url) props -> leaf_at (VObject props) key url
| leaf_below props k sub key url :
    In (k, sub) props -> leaf_at sub key url -> leaf_at (VObject props) key url.

(** The tree in which every Leaf without content URL is replaced by an
    empty Subtree. *)
Fixpoint null_as_empty (tree : value) : value :=
  match tree with
  | VString s => VString s
  | VNull => VObject []
  | VObject props => VObject (map (fun '(k, v) => (k, null_as_empty v)) props)
  end.

(** The keys and the content URLs of the tree, at any depth. *)
Fixpoint tree_strings (tree : value) : list string :=
  match tree with
  | VString url => [url]
  | VNull => []
  | VObject props => flat_map (fun '(key, v) => key :: tree_strings v) props
  end.

(** ** [renderHTML] *)

(** The double quote. *)
Definition dq : string := String (ascii_of_nat 34) EmptyString.

(** [<li class="file">...<a href="${tree[key]}" target="_blank">${key}</a></li>] *)
Definition file_item (key url : string) : string :=
  ("<li class=" ++ dq ++ "file" ++ dq ++ "><span class=" ++ dq ++ "icon" ++ dq
   ++ ">📄</span><a href=" ++ dq ++ url ++ dq ++ " target=" ++ dq ++ "_blank" ++ dq
   ++ ">" ++ key ++ "</a></li>")%string.

(** [<li class="folder">...${key}${renderHTML(tree[key])}</li>] *)
Definition folder_item (key inner : string) : string :=
  ("<li class=" ++ dq ++ "folder" ++ dq ++ "><span class=" ++ dq ++ "icon" ++ dq
   ++ ">📁</span>" ++ key ++ inner ++ "</li>")%string.

(** The loop [for (const key in tree)] of [renderHTML], [html] being the
    string built so far and [render] the recursive call: a value that is
    not a string is rendered as a folder. *)
Definition render_loop (render : value -> string)
  : Record_ -> string -> string :=
  fix loop (entries : Record_) (html : string) : string :=
    match entries with
    | [] => html
    | (key, value) :: rest =>
        if String.eqb (typeof value) "string" then
          loop rest (html ++ file_item key (string_of value))%string
        else
          loop rest (html ++ folder_item key (render value))%string
    end.

(** [for ... in] visits nothing when the operand is [null]; the function
    is never applied to a string. *)
Fixpoint renderHTML (tree : value) : string :=
  match tree with
  | VObject props => (render_loop renderHTML props "<ul class='tree'>" ++ "</ul>")%string
  | VNull => ("<ul class='tree'>" ++ "</ul>")%string
  | VString _ => ("<ul class='tree'>" ++ "</ul>")%string
  end.

(** ** [String.prototype.replace] with a string pattern, and [loadTemplate] *)

(** [s.startsWith(p)] *)
Fixpoint startsWith (p s : string) : bool :=
  match p, s with
  | EmptyString, _ => true
  | String a p', String b s' => Ascii.eqb a b && startsWith p' s'
  | String _ _, EmptyString => false
  end.

(** [s.slice(n)] *)
Fixpoint drop (n : nat) (s : string) : string :=
  match n, s with
  | 0, _ => s
  | S n', String _ s' => drop n' s'
  | S _, EmptyString => EmptyString
  end.

(** The text before and the text after the leftmost occurrence of the
    pattern [p] in [s], if [p] occurs in [s]. *)
Fixpoint cut (p s : string) : option (string * string) :=
  if startsWith p s then Some (EmptyString, drop (String.length p) s)
  else match s with
       | EmptyString => None
       | String c s' =>
           match cut p s' with
           | Some (before, after) => Some (String c before, after)
           | None => None
           end
       end.

(** The replacement text with its [$] patterns expanded. The pattern being
    a string, there are no captures: only [$$], [$&], [$`] and [$'] are
    special, and any other [$] stands for itself. *)
Fixpoint expand (r matched before after : string) : string :=
  match r with
  | EmptyString => EmptyString
  | String c rest =>
      if Ascii.eqb c "$" then
        match rest with
        | String d rest' =>
            if Ascii.eqb d "$" then String "$" (expand rest' matched before after)
            else if Ascii.eqb d "&" then (matched ++ expand rest' matched before after)%string
            else if Ascii.eqb d "`" then (before ++ expand rest' matched before after)%string
            else if Ascii.eqb d "'" then (after ++ expand rest' matched before after)%string
            else String c (expand rest matched before after)
        | EmptyString => String c EmptyString
        end
      else String c (expand rest matched before after)
  end.

(** [s.replace(pattern, replacement)]: the leftmost occurrence only. *)
Definition replace (pattern replacement s : string) : string :=
  match cut pattern s with
  | None => s
  | Some (before, after) =>
      (before ++ expand replacement pattern before after ++ after)%string
  end.

(** [readTextFile] is [Deno.readTextFile]: the text of the file, or the
    exception with which the read is rejected. *)
Definition loadTemplate (readTextFile : string -> thrown + string)
    (templatePath content analysis : string) : M string :=
  template <- await (readTextFile templatePath) ;;
  ret (replace "{{analysis}}" analysis (replace "{{content}}" content template)).

(** [p] occurs in [s]. *)
Definition occurs (p s : string) : Prop :=
  exists before after : string, s = (before ++ p ++ after)%string.

(** The character [$] occurs in [s]. *)
Fixpoint has_dollar (s : string) : bool :=
  match s with
  | EmptyString => false
  | String c rest => Ascii.eqb c "$" || has_dollar rest
  end.

(** ** The start of [main] *)

(** [s.split(sep)] for a separator of one character, [piece] being the
    piece collected so far. *)
Fixpoint split_on (sep : ascii) (piece : string) (s : string) : list string :=
  match s with
  | EmptyString => [piece]
  | String c rest =>
      if Ascii.eqb c sep then piece :: split_on sep EmptyString rest
      else split_on sep (piece ++ String c EmptyString) rest
  end.

(** What [main] reads before it starts the traversal:
    - [github_given] is the truth value of [args.github] and [github_text]
      is [String(args.github)];
    - [dotenv] is the outcome of [load({ export: true })]: the message of
      the error with which it is rejected, or the value of
      [env.GITHUB_TOKEN];
    - [environment] is [Deno.env.get("GITHUB_TOKEN")]. *)
Record invocation := {
  github_given : bool;
  github_text : string;
  dotenv : string + option string;
  environment : option string
}.

(** How the start of [main] ends: [Deno.exit(code)], or the token and the
    repository with which the traversal starts. *)
Inductive setup :=
| Exit (code : nat)
| Ready (token owner repo : string).

(** A string that is neither [undefined] nor empty. *)
Definition truthy (s : option string) : bool :=
  match s with
  | Some (String _ _) => true
  | _ => false
  end.

Definition text_of (s : option string) : string :=
  match s with
  | Some t => t
  | None => EmptyString
  end.

(** [main], lines 151 to 169, with the handler of [main().catch] for a
    rejected [load]. *)
Definition main_setup (inv : invocation) : M setup :=
  if negb (github_given inv) then
    console_error "Usage: docsee --github owner/repository" ;;
    ret (Exit 1)
  else
    match dotenv inv with
    | inl message =>
        console_error ("⛔ Error: " ++ message) ;;
        ret (Exit 1)
    | inr env_GITHUB_TOKEN =>
        let token :=
          if truthy env_GITHUB_TOKEN then env_GITHUB_TOKEN else environment inv in
        if negb (truthy token) then
          console_error "⚠️ GITHUB_TOKEN not set in environment or .env file." ;;
          ret (Exit 1)
        else
          let repoInfo := split_on "/" EmptyString (github_text inv) in
          if negb (length repoInfo =? 2)%nat then
            console_error "⚠️ Repository should be specified as owner/repository." ;;
            ret (Exit 1)
          else
            ret (Ready (text_of token)
                   (nth 0 repoInfo EmptyString) (nth 1 repoInfo EmptyString))
    end.

(** No [/] occurs in [s]. *)
Fixpoint no_slash (s : string) : bool :=
  match s with
  | EmptyString => true
  | String c rest => negb (Ascii.eqb c "/") && no_slash rest
  end.

(** A template with the two placeholders, and a file system that holds
    it under every path. *)
Definition sample_template : string :=
  "<body>{{content}}<hr>{{analysis}}</body>".

Definition sample_files (path : string) : thrown + string := inr sample_template.

(** An invocation [--github owner/repo] with the token in the environment
    and none in the [.env] file. *)
Definition sample_invocation : invocation :=
  {| github_given := true; github_text := "owner/repo";
     dotenv := inr None; environment := Some "token" |}.

(** * Properties *)

(** ** Trimming and splitting *)

Lemma is_empty_text_snoc (s : utf16) (c : code_unit) :
  is_empty_text (s ++ [c]) = false.
Proof. destruct s; reflexivity. Qed.

Lemma trimStart_decompose (s : utf16) :
  exists pre, s = pre ++ trimStart s /\ Forall (fun c => isWhiteSpace c = true) pre.
Proof.
  induction s as [|c s IH]; simpl.
  - exists []. split; [reflexivity | constructor].
  - destruct (isWhiteSpace c) eqn:Hc.
    + destruct IH as [pre [Heq Hpre]].
      exists (c :: pre). split.
      * simpl. f_equal. exact Heq.
      * constructor; assumption.
    + exists []. split; [reflexivity | constructor].
Qed.

Lemma trimStart_head (s : utf16) (c : code_unit) (rest : utf16) :
  trimStart s = c :: rest -> isWhiteSpace c = false.
Proof.
  induction s as [|d s IH]; simpl; [discriminate|].
  destruct (isWhiteSpace d) eqn:Hd; [exact IH|].
  intros H. injection H as -> _. exact Hd.
Qed.

Lemma trimEnd_decompose (s : utf16) :
  exists suf, s = trimEnd s ++ suf /\ Forall (fun c => isWhiteSpace c = true) suf.
Proof.
  unfold trimEnd.
  destruct (trimStart_decompose (rev s)) as [pre [Heq Hpre]].
  exists (rev pre). split.
  - rewrite <- rev_app_distr, <- Heq, rev_involutive. reflexivity.
  - apply Forall_rev. exact Hpre.
Qed.

Lemma trimEnd_last (s : utf16) :
  trimEnd s = [] \/
  exists front c, trimEnd s = front ++ [c] /\ isWhiteSpace c = false.
Proof.
  unfold trimEnd.
  destruct (trimStart (rev s)) as [|c rest] eqn:H.
  - left. reflexivity.
  - right. exists (rev rest), c. split; [reflexivity|].
    exact (trimStart_head _ _ _ H).
Qed.

Lemma tokens_from_space_suffix (suf : utf16) :
  Forall (fun c => isWhiteSpace c = true) suf ->
  forall s cur, tokens_from cur (s ++ suf) = tokens_from cur s.
Proof.
  intros Hsuf. induction s as [|c s IH]; intros cur; simpl.
  - revert cur. induction Hsuf as [|d suf Hd _ IHsuf]; intros cur; simpl.
    + reflexivity.
    + rewrite Hd, (IHsuf []). simpl. rewrite app_nil_r. reflexivity.
  - destruct (isWhiteSpace c); rewrite IH; reflexivity.
Qed.

Lemma tokens_space_prefix (pre : utf16) :
  Forall (fun c => isWhiteSpace c = true) pre ->
  forall s, tokens (pre ++ s) = tokens s.
Proof.
  unfold tokens. induction 1 as [|d pre Hd _ IH]; intros s; simpl.
  - reflexivity.
  - rewrite Hd. simpl. apply IH.
Qed.

Lemma tokens_trim (s : utf16) : tokens (trim s) = tokens s.
Proof.
  unfold trim.
  destruct (trimStart_decompose s) as [pre [Hs Hpre]].
  destruct (trimEnd_decompose (trimStart s)) as [suf [Ht Hsuf]].
  rewrite Hs at 2. rewrite (tokens_space_prefix pre Hpre).
  rewrite Ht at 2. unfold tokens.
  symmetry. apply tokens_from_space_suffix. exact Hsuf.
Qed.

Lemma tokens_from_nonempty (s cur : utf16) :
  Forall (fun t => is_empty_text t = false) (tokens_from cur s).
Proof.
  revert cur. induction s as [|c s IH]; intros cur; simpl.
  - destruct cur; simpl; repeat constructor.
  - destruct (isWhiteSpace c).
    + apply Forall_app. split; [|apply IH].
      destruct cur; simpl; repeat constructor.
    + apply IH.
Qed.

(** On a text that ends with a character that is not white space, the
    scan of [split] collects exactly the tokens, provided that it does not
    start on white space with nothing collected. *)
Lemma split_scan_tokens (c : code_unit) :
  isWhiteSpace c = false ->
  forall front in_sep piece,
    (in_sep = true -> piece = []) ->
    (in_sep = false -> piece = [] ->
     forall d rest, front = d :: rest -> isWhiteSpace d = false) ->
    split_scan in_sep piece (front ++ [c]) = tokens_from piece (front ++ [c]).
Proof.
  intros Hc. induction front as [|d front IH]; intros in_sep piece Hsep Hstart; simpl.
  - rewrite Hc. simpl. rewrite is_empty_text_snoc. reflexivity.
  - destruct (isWhiteSpace d) eqn:Hd.
    + destruct in_sep.
      * rewrite (Hsep eq_refl). simpl. apply IH; [reflexivity | discriminate].
      * destruct piece as [|p piece].
        -- rewrite (Hstart eq_refl eq_refl d front eq_refl) in Hd. discriminate.
        -- simpl. f_equal. apply IH; [reflexivity | discriminate].
    + apply IH; [discriminate|].
      intros _ Hp. destruct piece; discriminate.
Qed.

Lemma trim_head (s : utf16) (c : code_unit) (rest : utf16) :
  trim s = c :: rest -> isWhiteSpace c = false.
Proof.
  unfold trim. intros H.
  destruct (trimEnd_decompose (trimStart s)) as [suf [Ht _]].
  rewrite H in Ht. simpl in Ht.
  exact (trimStart_head s c _ Ht).
Qed.

(** After trimming, [split] returns the tokens of the text, or the single
    empty piece when there is none. *)
Lemma split_trim (s : utf16) :
  split_whitespace (trim s)
  = match tokens s with [] => [[]] | _ :: _ => tokens s end.
Proof.
  rewrite <- (tokens_trim s).
  destruct (trimEnd_last (trimStart s)) as [H | [front [c [H Hc]]]];
    fold (trim s) in H.
  - rewrite H. reflexivity.
  - assert (Hsplit : split_whitespace (trim s) = tokens (trim s)).
    { unfold split_whitespace, tokens. rewrite H.
      apply split_scan_tokens; [exact Hc | discriminate |].
      intros _ _ d rest Hfront.
      apply (trim_head s d (rest ++ [c])). rewrite H, Hfront. reflexivity. }
    rewrite Hsplit.
    destruct (tokens (trim s)) eqn:Ht; [|reflexivity].
    exfalso. rewrite H in Ht. unfold tokens in Ht.
    clear -Ht Hc.
    assert (Hgen : forall fr cur, tokens_from cur (fr ++ [c]) <> []).
    { induction fr as [|d fr IH]; intros cur; simpl.
      - rewrite Hc. simpl. rewrite is_empty_text_snoc. discriminate.
      - destruct (isWhiteSpace d).
        + intros Habs. apply app_eq_nil in Habs. destruct Habs as [_ Habs].
          exact (IH _ Habs).
        + apply IH. }
    exact (Hgen _ _ Ht).
Qed.

(** The number that the program adds to [wordCount] is the number of
    white-space delimited tokens of the body. *)
Lemma countWords_tokens (content : utf16) :
  countWords content = length (tokens content).
Proof.
  unfold countWords. rewrite split_trim.
  destruct (tokens content) as [|t ts] eqn:Ht; [reflexivity|].
  pose proof (tokens_from_nonempty content []) as Hne.
  fold (tokens content) in Hne. rewrite Ht in Hne.
  inversion Hne as [|? ? Hfirst _]; subst.
  simpl. rewrite Hfirst. reflexivity.
Qed.

Lemma countWords_spec (content : utf16) :
  countWords content = spec_word_count content.
Proof.
  rewrite countWords_tokens. unfold spec_word_count.
  rewrite tokens_trim.
  destruct (trim content) eqn:Htrim; [|reflexivity].
  rewrite <- (tokens_trim content), Htrim. reflexivity.
Qed.

(** ** The aggregation computed by [analyzeRepository] *)

Lemma value_induction (P : value -> Prop) :
  (forall s, P (VString s)) ->
  P VNull ->
  (forall props, Forall (fun p => P (snd p)) props -> P (VObject props)) ->
  forall v, P v.
Proof.
  intros Hs Hn Ho. fix IH 1. intros [s| |props].
  - apply Hs.
  - apply Hn.
  - apply Ho. induction props as [|[k v] props IHp]; constructor.
    + apply IH.
    + exact IHp.
Qed.

Lemma Analysis_eq (a b : Analysis) :
  folderCount a = folderCount b -> fileCount a = fileCount b ->
  wordCount a = wordCount b -> totalSize a = totalSize b -> a = b.
Proof. destruct a, b; simpl; intros; subst; reflexivity. Qed.

Lemma world_eq (w w' : world) :
  requests w = requests w' -> console w = console w' -> w = w'.
Proof. destruct w, w'; simpl; intros; subst; reflexivity. Qed.

Lemma returned_eq {A} (a a' : A) (w w' : world) :
  a = a' -> w = w' -> (Returned a, w) = (Returned a', w').
Proof. intros; subst; reflexivity. Qed.

Ltac stats_eq := apply Analysis_eq; simpl; lia.
Ltac world_eq := apply world_eq; simpl; rewrite ?app_nil_r; reflexivity.

Section Aggregation.

Variable network : request -> fetch_result.

(** The contribution of one Leaf with a URL: one file, and the words and
    the size of its body when the fetch succeeds. *)
Lemma analyze_file_run (key url : string) (stats : Analysis) (w : world) :
  analyze_file network key url stats w
  = (Returned (merge stats {| folderCount := 0; fileCount := 1;
                              wordCount := words_at network url;
                              totalSize := size_at network url |}),
     {| requests := requests w ++ [body_request url];
        console := console w ++ match caught network url with
                                | Some e => [error_line key e]
                                | None => []
                                end |}).
Proof.
  unfold analyze_file, try_catch, bind, fetch, words_at, size_at, fetched, caught.
  fold (body_request url).
  destruct (network (body_request url)) as [e | r].
  - destruct e; simpl; (apply returned_eq; [stats_eq | world_eq]).
  - destruct (Response.ok r); simpl.
    + destruct (Response.text r) as [e | content]; simpl.
      * destruct e; simpl; (apply returned_eq; [stats_eq | world_eq]).
      * apply returned_eq; [stats_eq | world_eq].
    + apply returned_eq; [stats_eq | world_eq].
Qed.

Lemma after_analysis_null (w : world) : after_analysis network VNull w = w.
Proof. world_eq. Qed.

Lemma analyze_loop_run (props : Record_) :
  Forall (fun p => forall w,
              analyzeRepository network (snd p) w
              = (Returned (stats_of network (snd p)),
                 after_analysis network (snd p) w)) props ->
  forall stats w,
    analyze_loop network (analyzeRepository network) props stats w
    = (Returned (merge stats (stats_of network (VObject props))),
       after_analysis network (VObject props) w).
Proof.
  induction 1 as [|[key v] rest Hv _ IH]; intros stats w.
  - simpl. unfold ret. apply returned_eq; [stats_eq | world_eq].
  - simpl in Hv.
    cbn [analyze_loop]. unfold bind at 1.
    destruct v as [u| |sub].
    + unfold analyze_entry. cbn [typeof string_of String.eqb Ascii.eqb Bool.eqb].
      rewrite analyze_file_run, IH.
      apply returned_eq; [stats_eq|].
      apply world_eq; simpl; rewrite <- app_assoc; reflexivity.
    + unfold analyze_entry. cbn.
      rewrite IH.
      apply returned_eq; [stats_eq | world_eq].
    + unfold analyze_entry, analyze_folder.
      cbn [typeof String.eqb Ascii.eqb Bool.eqb]. unfold bind at 1.
      rewrite Hv. unfold ret at 1. rewrite IH.
      apply returned_eq.
      * apply Analysis_eq; simpl;
          rewrite ?map_app, ?list_sum_app, ?length_app; lia.
      * apply world_eq; simpl; rewrite ?map_app, <- ?app_assoc; reflexivity.
Qed.

(** [analyzeRepository] always returns, with the statistics [stats_of];
    it makes one request per Leaf with a URL and writes one line per
    exception caught. *)
Lemma analyzeRepository_run (tree : value) :
  forall w,
    analyzeRepository network tree w
    = (Returned (stats_of network tree), after_analysis network tree w).
Proof.
  induction tree as [s| |props IH] using value_induction; intros w.
  - simpl. unfold ret. apply returned_eq; [reflexivity | world_eq].
  - simpl. unfold ret. rewrite after_analysis_null. reflexivity.
  - cbn [analyzeRepository].
    rewrite (analyze_loop_run props IH).
    apply returned_eq; [stats_eq | reflexivity].
Qed.

End Aggregation.

(** ** Statistics of a tree *)

Lemma statistics_stats_of (network : request -> fetch_result) (tree : value) :
  statistics network tree = Some (stats_of network tree).
Proof. unfold statistics. rewrite analyzeRepository_run. reflexivity. Qed.

Lemma count_url_leaves_length (tree : value) :
  length (leaf_urls tree) = count_url_leaves tree.
Proof.
  induction tree as [s| |props IH] using value_induction; try reflexivity.
  simpl. induction IH as [|[k v] rest Hv _ IHrest]; simpl; [reflexivity|].
  rewrite length_app, IHrest. simpl in Hv.
  destruct v; simpl in *; lia.
Qed.

Lemma fetch_fails_fetched (network : request -> fetch_result) (url : string) :
  fetch_fails network url <-> fetched network url = None.
Proof.
  unfold fetched. split.
  - intros [e H | r H Hok | r e H Hok Htext]; rewrite H; try reflexivity.
    + rewrite Hok. reflexivity.
    + rewrite Hok, Htext. reflexivity.
  - destruct (network (body_request url)) as [e | r] eqn:H.
    + intros _. exact (fails_rejected _ _ e H).
    + destruct (Response.ok r) eqn:Hok.
      * destruct (Response.text r) as [e | c] eqn:Htext; [|discriminate].
        intros _. exact (fails_body _ _ r e H Hok Htext).
      * intros _. exact (fails_status _ _ r H Hok).
Qed.

Lemma fetch_fails_contributes_nothing (network : request -> fetch_result) (url : string) :
  fetch_fails network url ->
  words_at network url = 0 /\ size_at network url = 0.
Proof.
  intros H. apply fetch_fails_fetched in H.
  unfold words_at, size_at. rewrite H. split; reflexivity.
Qed.

(** A URL that contributes nothing can be left out of the sum. *)
Lemma list_sum_without (g : string -> nat) (url : string) (urls : list string) :
  g url = 0 ->
  list_sum (map g urls)
  = list_sum (map g (filter (fun u => negb (String.eqb u url)) urls)).
Proof.
  intros Hzero. induction urls as [|u urls IH]; simpl; [reflexivity|].
  destruct (String.eqb_spec u url) as [-> | Hne]; simpl; lia.
Qed.

Lemma list_sum_bodies (network : request -> fetch_result) (g : utf16 -> nat)
    (urls : list string) :
  list_sum (map g (flat_map (fun u => match fetched network u with
                                      | Some content => [content]
                                      | None => []
                                      end) urls))
  = list_sum (map (fun u => match fetched network u with
                            | Some content => g content
                            | None => 0
                            end) urls).
Proof.
  induction urls as [|u urls IH]; simpl; [reflexivity|].
  rewrite map_app, list_sum_app, IH.
  destruct (fetched network u); simpl; lia.
Qed.

Lemma byteLength_ascii (s : utf16) : is_ascii s -> byteLength s = length s.
Proof.
  induction 1 as [|c s Hc _ IH]; simpl; [reflexivity|].
  apply N.ltb_lt in Hc. rewrite Hc, IH. reflexivity.
Qed.

(** ** Reordering the entries of a tree *)

Lemma list_sum_Permutation (l l' : list nat) :
  Permutation l l' -> list_sum l = list_sum l'.
Proof. induction 1; simpl; lia. Qed.

Lemma reorder_measures (t t' : value) :
  reorder t t' ->
  (is_subtree t = is_subtree t' /\ is_null_leaf t = is_null_leaf t'
   /\ string_of t = string_of t')
  /\ Permutation (leaf_urls t) (leaf_urls t')
  /\ count_subtrees t = count_subtrees t'
  /\ count_null_leaves t = count_null_leaves t'.
Proof.
  induction 1 as [v | ps qs Hperm | ps k v v' qs _ IH | t1 t2 t3 _ IH1 _ IH2].
  - repeat split; reflexivity || apply Permutation_refl.
  - repeat split; simpl.
    + apply Permutation_flat_map. exact Hperm.
    + apply list_sum_Permutation, Permutation_map. exact Hperm.
    + apply list_sum_Permutation, Permutation_map. exact Hperm.
  - destruct IH as [[Hsub [Hnull Hstr]] [Hurls [Hcs Hcn]]].
    repeat split; simpl.
    + rewrite !flat_map_app. apply Permutation_app_head. simpl.
      apply Permutation_app_tail.
      destruct v, v'; simpl in *; try discriminate; subst;
        (exact Hurls || apply Permutation_refl).
    + rewrite !map_app, !list_sum_app. simpl. lia.
    + rewrite !map_app, !list_sum_app. simpl. lia.
  - destruct IH1 as [[? [? ?]] [? [? ?]]], IH2 as [[? [? ?]] [? [? ?]]].
    repeat split; try congruence.
    eapply Permutation_trans; eassumption.
Qed.

Lemma stats_of_reorder (network : request -> fetch_result) (t t' : value) :
  reorder t t' -> stats_of network t = stats_of network t'.
Proof.
  intros H. destruct (reorder_measures t t' H) as [_ [Hurls [Hcs Hcn]]].
  apply Analysis_eq; simpl.
  - lia.
  - apply Permutation_length. exact Hurls.
  - apply list_sum_Permutation, Permutation_map. exact Hurls.
  - apply list_sum_Permutation, Permutation_map. exact Hurls.
Qed.

(** A permutation of the root's entries is a reordering, and so is a
    reordering of a nested mapping. *)
Lemma reorder_sample : reorder sample_tree sample_tree_swapped.
Proof. apply reorder_here. apply perm_swap. Qed.

(** ** The aggregator's claims *)

(** C1 (the code departs from the claim). A Leaf whose content URL is
    [null] is not a no-op: [typeof null] is ["object"], so the entry takes
    the folder branch, [folderCount] grows by one, and the recursive call
    on [null] returns zeros. On the tree [{ "a.md": null }] the statistics
    are one folder and no file. *)
Theorem null_leaf_counted_as_folder
    (network : request -> fetch_result) (key : string) (stats : Analysis) (w : world) :
  analyze_entry network (analyzeRepository network) key VNull stats w
  = (Returned (merge stats {| folderCount := 1; fileCount := 0;
                              wordCount := 0; totalSize := 0 |}), w)
  /\ statistics network null_leaf_tree
     = Some {| folderCount := 1; fileCount := 0; wordCount := 0; totalSize := 0 |}.
Proof.
  split.
  - unfold analyze_entry, analyze_folder. cbn.
    apply returned_eq; [stats_eq | reflexivity].
  - reflexivity.
Qed.

(** C2 (the code departs from the claim). [folderCount] is the number of
    Subtree nodes plus the number of Leaf entries whose content URL is
    [null]: every Subtree is counted once, and every [null] Leaf is
    counted as a folder too. On the tree
    [{ "docs": { "b.md": null }, "a.md": url }] the count is 2 although the
    tree has a single Subtree. *)
Theorem folderCount_subtrees_and_null_leaves
    (network : request -> fetch_result) (tree : value) (w : world) :
  (exists stats w',
      analyzeRepository network tree w = (Returned stats, w')
      /\ folderCount stats = count_subtrees tree + count_null_leaves tree)
  /\ (exists stats,
         statistics network mixed_tree = Some stats
         /\ folderCount stats = 2
         /\ count_subtrees mixed_tree = 1).
Proof.
  split.
  - exists (stats_of network tree), (after_analysis network tree w).
    split; [apply analyzeRepository_run | reflexivity].
  - exists (stats_of network mixed_tree).
    split; [apply statistics_stats_of | split; reflexivity].
Qed.

(** Without [null] Leaf entries, [folderCount] is the number of Subtree
    nodes: no folder is counted twice. *)
Lemma folderCount_without_null_leaves
    (network : request -> fetch_result) (tree : value) :
  count_null_leaves tree = 0 ->
  folderCount (stats_of network tree) = count_subtrees tree.
Proof. intros H. simpl. rewrite H. lia. Qed.

(** C3. Whatever the requests resolve to, when the fetch of [url] fails
    (the request is rejected, the status is not a success, or the body
    cannot be read) the aggregation returns, [fileCount] still counts
    every Leaf with a URL, those of [url] included, and [wordCount] and
    [totalSize] are the sums of the contributions of the other URLs, each
    of which depends on the outcome of its own fetch only: [url]
    contributes zero to both. *)
Theorem failed_fetch_is_isolated
    (network : request -> fetch_result) (tree : value) (w : world) (url : string) :
  fetch_fails network url ->
  exists stats w',
    analyzeRepository network tree w = (Returned stats, w')
    /\ fileCount stats = count_url_leaves tree
    /\ wordCount stats
       = list_sum (map (words_at network)
                       (filter (fun u => negb (String.eqb u url)) (leaf_urls tree)))
    /\ totalSize stats
       = list_sum (map (size_at network)
                       (filter (fun u => negb (String.eqb u url)) (leaf_urls tree))).
Proof.
  intros Hfail.
  destruct (fetch_fails_contributes_nothing network url Hfail) as [Hw Hs].
  exists (stats_of network tree), (after_analysis network tree w).
  split; [apply analyzeRepository_run|].
  split; [apply count_url_leaves_length|].
  split; simpl; apply list_sum_without; assumption.
Qed.

(** C4. [fileCount] is the number of Leaf entries of the whole tree whose
    content URL is not [null], whatever the requests resolve to. *)
Theorem fileCount_counts_url_leaves
    (network : request -> fetch_result) (tree : value) (w : world) :
  exists stats w',
    analyzeRepository network tree w = (Returned stats, w')
    /\ fileCount stats = count_url_leaves tree.
Proof.
  exists (stats_of network tree), (after_analysis network tree w).
  split; [apply analyzeRepository_run | apply count_url_leaves_length].
Qed.

(** C5 (the code departs from the claim). The program adds
    [content.length], the number of UTF-16 code units of the body, not its
    byte length, although [renderRepositoryAnalysis] divides [totalSize]
    by 1024 and prints the result in KB. The body "é" (U+00E9) is fetched
    with success and adds 1 to [totalSize], while its byte length is 2. *)
Lemma totalSize_not_byte_length :
  bodies accent_network accent_tree = [accent_body]
  /\ byteLength accent_body = 2
  /\ exists stats,
       statistics accent_network accent_tree = Some stats
       /\ totalSize stats = 1
       /\ totalSize stats
          <> list_sum (map byteLength (bodies accent_network accent_tree)).
Proof.
  split; [reflexivity|]. split; [reflexivity|].
  eexists. split; [reflexivity|]. split; [reflexivity|].
  cbv. discriminate.
Qed.

(** What the program computes for [totalSize]: the sum, over the bodies
    fetched with success, of the length of the body in UTF-16 code units
    (JavaScript's [content.length]); a Leaf whose fetch fails adds
    nothing. For a body made of ASCII characters only, that length is the
    byte length, so the count is the byte count on such bodies. *)
Theorem totalSize_sums_lengths
    (network : request -> fetch_result) (tree : value) (w : world) :
  (exists stats w',
      analyzeRepository network tree w = (Returned stats, w')
      /\ totalSize stats = list_sum (map (@length code_unit) (bodies network tree)))
  /\ (forall content : utf16, is_ascii content -> length content = byteLength content).
Proof.
  split.
  - exists (stats_of network tree), (after_analysis network tree w).
    split; [apply analyzeRepository_run|].
    simpl. unfold bodies. rewrite list_sum_bodies. reflexivity.
  - intros content H. symmetry. apply byteLength_ascii. exact H.
Qed.

(** C6. If the fetch of every Leaf succeeds, [wordCount] is the sum over
    the fetched bodies, one per Leaf, of the number of white-space
    delimited tokens of the trimmed body, a body that is empty after
    trimming counting zero. *)
Theorem wordCount_sums_tokens
    (network : request -> fetch_result) (tree : value) (w : world) :
  (forall url, In url (leaf_urls tree) -> exists content, fetched network url = Some content) ->
  exists stats w',
    analyzeRepository network tree w = (Returned stats, w')
    /\ length (bodies network tree) = count_url_leaves tree
    /\ wordCount stats = list_sum (map spec_word_count (bodies network tree))
    /\ (forall body, trim body = [] -> countWords body = 0).
Proof.
  intros Hall.
  exists (stats_of network tree), (after_analysis network tree w).
  split; [apply analyzeRepository_run|].
  split; [|split].
  - rewrite <- count_url_leaves_length. unfold bodies.
    induction (leaf_urls tree) as [|u urls IH]; simpl; [reflexivity|].
    destruct (Hall u (or_introl eq_refl)) as [content Hu]. rewrite Hu. simpl.
    f_equal. apply IH. intros url Hin. apply Hall. right. exact Hin.
  - simpl. unfold bodies. rewrite list_sum_bodies.
    f_equal. apply map_ext. intros u. unfold words_at.
    destruct (fetched network u); [apply countWords_spec | reflexivity].
  - intros body Hempty. unfold countWords. rewrite Hempty. reflexivity.
Qed.

(** C10. For a fixed assignment of outcomes to requests, putting the
    entries of any mappings of the tree in another order leaves every
    field of the statistics unchanged. *)
Theorem statistics_order_independent
    (network : request -> fetch_result) (tree tree' : value) (w : world) :
  reorder tree tree' ->
  exists stats w1 w2,
    analyzeRepository network tree w = (Returned stats, w1)
    /\ analyzeRepository network tree' w = (Returned stats, w2).
Proof.
  intros H.
  exists (stats_of network tree), (after_analysis network tree w),
    (after_analysis network tree' w).
  split; [apply analyzeRepository_run|].
  rewrite (stats_of_reorder network tree tree' H). apply analyzeRepository_run.
Qed.

(** ** Property lists *)

Lemma get_replace_value_same (o : Record_) (k : string) (v : value) :
  has_key o k = true -> get (replace_value o k v) k = Some v.
Proof.
  unfold has_key. induction o as [|[k0 v0] o IH]; simpl; [discriminate|].
  destruct (String.eqb k0 k) eqn:Hk; simpl; rewrite Hk; [reflexivity | exact IH].
Qed.

Lemma get_replace_value_other (o : Record_) (k k' : string) (v : value) :
  k' <> k -> get (replace_value o k v) k' = get o k'.
Proof.
  intros Hne. induction o as [|[k0 v0] o IH]; simpl; [reflexivity|].
  destruct (String.eqb_spec k0 k) as [-> | Hk0]; simpl.
  - destruct (String.eqb_spec k k'); [congruence | reflexivity].
  - rewrite IH. reflexivity.
Qed.

Lemma get_insert_index_same (o : Record_) (i : N) (k : string) (v : value) :
  has_key o k = false -> get (insert_index o i k v) k = Some v.
Proof.
  unfold has_key. induction o as [|[k0 v0] o IH]; simpl.
  - rewrite String.eqb_refl. reflexivity.
  - destruct (String.eqb k0 k) eqn:Hk; [discriminate|]. intros Hget.
    destruct (array_index k0) as [j|]; [destruct (j <? i)%N|]; simpl;
      rewrite ?Hk, ?String.eqb_refl; auto.
Qed.

Lemma get_insert_index_other (o : Record_) (i : N) (k k' : string) (v : value) :
  k' <> k -> get (insert_index o i k v) k' = get o k'.
Proof.
  intros Hne. apply not_eq_sym in Hne. apply String.eqb_neq in Hne.
  induction o as [|[k0 v0] o IH]; simpl.
  - rewrite Hne. reflexivity.
  - destruct (array_index k0) as [j|]; [destruct (j <? i)%N|]; simpl;
      rewrite ?Hne, ?IH; reflexivity.
Qed.

Lemma get_append_same (o : Record_) (k : string) (v : value) :
  has_key o k = false -> get (o ++ [(k, v)]) k = Some v.
Proof.
  unfold has_key. induction o as [|[k0 v0] o IH]; simpl.
  - rewrite String.eqb_refl. reflexivity.
  - destruct (String.eqb k0 k); [discriminate | exact IH].
Qed.

Lemma get_append_other (o : Record_) (k k' : string) (v : value) :
  k' <> k -> get (o ++ [(k, v)]) k' = get o k'.
Proof.
  intros Hne. apply not_eq_sym in Hne. apply String.eqb_neq in Hne.
  induction o as [|[k0 v0] o IH]; simpl.
  - rewrite Hne. reflexivity.
  - rewrite IH. reflexivity.
Qed.

(** After [result[k] = v], the property [k] holds [v] and the other
    properties are as before. *)
Lemma get_set_same (o : Record_) (k : string) (v : value) :
  get (set o k v) k = Some v.
Proof.
  unfold set. destruct (has_key o k) eqn:Hk.
  - apply get_replace_value_same. exact Hk.
  - destruct (array_index k).
    + apply get_insert_index_same. exact Hk.
    + apply get_append_same. exact Hk.
Qed.

Lemma get_set_other (o : Record_) (k k' : string) (v : value) :
  k' <> k -> get (set o k v) k' = get o k'.
Proof.
  intros Hne. unfold set. destruct (has_key o k).
  - apply get_replace_value_other. exact Hne.
  - destruct (array_index k).
    + apply get_insert_index_other. exact Hne.
    + apply get_append_other. exact Hne.
Qed.

(** ** Suffixes *)

Lemma substring_all (s : string) : substring 0 (String.length s) s = s.
Proof. induction s as [|c s IH]; simpl; [reflexivity | rewrite IH; reflexivity]. Qed.

Lemma length_append (p s : string) :
  String.length (p ++ s) = String.length p + String.length s.
Proof. induction p as [|c p IH]; simpl; [reflexivity | rewrite IH; reflexivity]. Qed.

Lemma substring_after_prefix (p s : string) :
  substring (String.length p) (String.length s) (p ++ s) = s.
Proof. induction p as [|c p IH]; simpl; [apply substring_all | exact IH]. Qed.

Lemma substring_split (i : nat) :
  forall s : string,
    i <= String.length s ->
    (substring 0 i s ++ substring i (String.length s - i) s)%string = s.
Proof.
  induction i as [|i IH]; intros s Hi.
  - rewrite Nat.sub_0_r, substring_all. destruct s; reflexivity.
  - destruct s as [|c s]; simpl in *; [lia|].
    rewrite IH by lia. reflexivity.
Qed.

(** [endsWith] decides the suffix relation. *)
Lemma endsWith_has_suffix (s suffix : string) :
  endsWith s suffix = true <-> has_suffix suffix s.
Proof.
  unfold endsWith, has_suffix. split.
  - destruct (Nat.leb_spec (String.length suffix) (String.length s)) as [Hle|];
      [|discriminate].
    intros H. apply String.eqb_eq in H.
    exists (substring 0 (String.length s - String.length suffix) s).
    pose proof (substring_split (String.length s - String.length suffix) s) as Hsplit.
    replace (String.length s - (String.length s - String.length suffix))
      with (String.length suffix) in Hsplit by lia.
    rewrite H in Hsplit. symmetry. apply Hsplit. lia.
  - intros [front ->]. rewrite length_append.
    destruct (Nat.leb_spec (String.length suffix)
                (String.length front + String.length suffix)); [|lia].
    replace (String.length front + String.length suffix - String.length suffix)
      with (String.length front) by lia.
    rewrite substring_after_prefix. apply String.eqb_refl.
Qed.

Lemma is_markdown_suffix (name : string) :
  is_markdown name = true <-> has_suffix ".md" name \/ has_suffix ".mdx" name.
Proof.
  unfold is_markdown. rewrite orb_true_iff, !endsWith_has_suffix. reflexivity.
Qed.

(** ** The traversal *)

Lemma add_requests_nil (w : world) : add_requests [] w = w.
Proof. world_eq. Qed.

Lemma add_requests_app (qs1 qs2 : list request) (w : world) :
  add_requests qs2 (add_requests qs1 w) = add_requests (qs1 ++ qs2) w.
Proof. apply world_eq; simpl; [apply eq_sym, app_assoc | reflexivity]. Qed.

Section Traversal.

Variable network : request -> fetch_result.

Lemma listing_fails_functional (rq : request) (e e' : thrown) :
  listing_fails network rq e -> listing_fails network rq e' -> e = e'.
Proof.
  intros [e1 H1 | r1 H1 Hok1 | r1 e1 H1 Hok1 Hjson1]
         [e2 H2 | r2 H2 Hok2 | r2 e2 H2 Hok2 Hjson2];
    rewrite H1 in H2; try discriminate; injection H2 as <-; congruence.
Qed.

Lemma listing_fails_or_succeeds (rq : request) :
  (exists e, listing_fails network rq e)
  \/ (exists items, listing_succeeds network rq items).
Proof.
  destruct (network rq) as [e | r] eqn:H.
  - left. exists e. apply listing_rejected. exact H.
  - destruct (Response.ok r) eqn:Hok.
    + destruct (Response.json r) as [e | items] eqn:Hjson.
      * left. exists e. eapply listing_unreadable; eassumption.
      * right. exists items, r. auto.
    + left. eexists. eapply listing_status; eassumption.
Qed.

Lemma listing_succeeds_not_fails (rq : request) (items : list GitHub) (e : thrown) :
  listing_succeeds network rq items -> listing_fails network rq e -> False.
Proof.
  intros [r [H [Hok Hjson]]] [e1 H1 | r1 H1 Hok1 | r1 e1 H1 Hok1 Hjson1];
    rewrite H in H1; try discriminate; injection H1 as <-; congruence.
Qed.

Lemma uniform_ret {A} (a : A) : uniform_run network (ret a) (Returned a) [].
Proof.
  split.
  - intros w. unfold ret. rewrite add_requests_nil. reflexivity.
  - intros rq e [].
Qed.

Lemma uniform_bind {A B} (m : M A) (k : A -> M B)
    (r1 : outcome A) (qs1 : list request) :
  uniform_run network m r1 qs1 ->
  (forall a, r1 = Returned a -> exists r2 qs2, uniform_run network (k a) r2 qs2) ->
  exists r qs, uniform_run network (bind m k) r qs.
Proof.
  intros [Hrun Hfail] Hk. destruct r1 as [a | e | ].
  - destruct (Hk a eq_refl) as [r2 [qs2 [Hrun2 Hfail2]]].
    exists r2, (qs1 ++ qs2). split.
    + intros w. unfold bind. rewrite Hrun, Hrun2, add_requests_app. reflexivity.
    + intros rq e Hin Hrq. apply in_app_or in Hin. destruct Hin as [Hin | Hin].
      * discriminate (Hfail rq e Hin Hrq).
      * exact (Hfail2 rq e Hin Hrq).
  - exists (Thrown e), qs1. split.
    + intros w. unfold bind. rewrite Hrun. reflexivity.
    + intros rq e' Hin Hrq. specialize (Hfail rq e' Hin Hrq).
      injection Hfail as <-. reflexivity.
  - exists OutOfFuel, qs1. split.
    + intros w. unfold bind. rewrite Hrun. reflexivity.
    + intros rq e' Hin Hrq. discriminate (Hfail rq e' Hin Hrq).
Qed.

Variables token owner repo : string.

Lemma fetchRepository_fails (path : string) (e : thrown) (w : world) :
  listing_fails network (listing_request token owner repo path) e ->
  fetchRepository network token owner repo path w
  = (Thrown e, add_requests [listing_request token owner repo path] w).
Proof.
  unfold fetchRepository, bind, fetch.
  fold (listing_request token owner repo path).
  intros [e1 H | r H Hok | r e1 H Hok Hjson]; rewrite H; try reflexivity.
  - rewrite Hok. reflexivity.
  - rewrite Hok, Hjson. reflexivity.
Qed.

Lemma fetchRepository_succeeds (path : string) (items : list GitHub) (w : world) :
  listing_succeeds network (listing_request token owner repo path) items ->
  fetchRepository network token owner repo path w
  = (Returned items, add_requests [listing_request token owner repo path] w).
Proof.
  unfold fetchRepository, bind, fetch.
  fold (listing_request token owner repo path).
  intros [r [H [Hok Hjson]]]. rewrite H, Hok, Hjson. reflexivity.
Qed.

Lemma fetchRepository_uniform (path : string) :
  exists r,
    uniform_run network (fetchRepository network token owner repo path) r
      [listing_request token owner repo path]
    /\ (forall items, r = Returned items ->
        listing_succeeds network (listing_request token owner repo path) items).
Proof.
  destruct (listing_fails_or_succeeds (listing_request token owner repo path))
    as [[e He] | [items Hitems]].
  - exists (Thrown e). split; [split|].
    + intros w. apply fetchRepository_fails. exact He.
    + intros rq e' [<- | []] Hrq. f_equal.
      exact (listing_fails_functional _ _ _ He Hrq).
    + discriminate.
  - exists (Returned items). split; [split|].
    + intros w. apply fetchRepository_succeeds. exact Hitems.
    + intros rq e' [<- | []] Hrq.
      destruct (listing_succeeds_not_fails _ _ _ Hitems Hrq).
    + intros items' H. injection H as <-. exact Hitems.
Qed.

Lemma traverse_item_uniform (traverse : string -> M Record_) :
  (forall path, exists r qs, uniform_run network (traverse path) r qs) ->
  forall item result,
  exists r qs, uniform_run network (traverse_item traverse item result) r qs.
Proof.
  intros Htraverse item result. unfold traverse_item.
  destruct (GitHub.type item).
  - destruct (is_markdown (GitHub.name item)); eexists; eexists; apply uniform_ret.
  - destruct (Htraverse (GitHub.path item)) as [r1 [qs1 H1]].
    eapply uniform_bind; [exact H1|].
    intros subtree _. eexists; eexists; apply uniform_ret.
Qed.

Lemma traverse_items_uniform (traverse : string -> M Record_) :
  (forall path, exists r qs, uniform_run network (traverse path) r qs) ->
  forall items result,
  exists r qs, uniform_run network (traverse_items traverse items result) r qs.
Proof.
  intros Htraverse. induction items as [|item rest IH]; intros result.
  - eexists; eexists; apply uniform_ret.
  - cbn [traverse_items].
    destruct (traverse_item_uniform traverse Htraverse item result) as [r1 [qs1 H1]].
    eapply uniform_bind; [exact H1|].
    intros result' _. apply IH.
Qed.

(** From any world, a traversal ends in the same outcome after the same
    queries, and a failure of any of its queries is its outcome. *)
Lemma traverseRepository_uniform (fuel : nat) :
  forall path,
  exists r qs,
    uniform_run network (traverseRepository network fuel token owner repo path) r qs.
Proof.
  induction fuel as [|fuel IH]; intros path.
  - exists OutOfFuel, []. split.
    + intros w. simpl. unfold out_of_fuel. rewrite add_requests_nil. reflexivity.
    + intros rq e [].
  - cbn [traverseRepository].
    destruct (fetchRepository_uniform path) as [r1 [H1 _]].
    eapply uniform_bind; [exact H1|].
    intros items _. apply traverse_items_uniform. exact IH.
Qed.

Lemma traverseRepository_run (fuel : nat) (path : string) (w : world) :
  traverseRepository network fuel token owner repo path w
  = (tree_built network fuel token owner repo path,
     add_requests (queries network fuel token owner repo path) w).
Proof.
  destruct (traverseRepository_uniform fuel path) as [r [qs [Hrun _]]].
  unfold tree_built, queries. rewrite !Hrun. simpl. reflexivity.
Qed.

Lemma queries_failure (fuel : nat) (path : string) (rq : request) (e : thrown) :
  In rq (queries network fuel token owner repo path) ->
  listing_fails network rq e ->
  tree_built network fuel token owner repo path = Thrown e.
Proof.
  destruct (traverseRepository_uniform fuel path) as [r [qs [Hrun Hfail]]].
  unfold tree_built, queries. rewrite !Hrun. simpl. apply Hfail.
Qed.

(** With fuel, the query for the path itself is made. *)
Lemma root_query_made (fuel : nat) (path : string) :
  In (listing_request token owner repo path)
     (queries network (S fuel) token owner repo path).
Proof.
  unfold queries. cbn [traverseRepository]. unfold bind.
  destruct (fetchRepository_uniform path) as [r1 [[Hrun _] _]]. rewrite Hrun.
  destruct r1 as [items | e | ]; simpl; try (left; reflexivity).
  destruct (traverse_items_uniform
              (traverseRepository network fuel token owner repo)
              (traverseRepository_uniform fuel) items []) as [r2 [qs2 [Hrun2 _]]].
  rewrite Hrun2. simpl. left. reflexivity.
Qed.

(** *** More fuel does not change an outcome that did not lack fuel *)

Lemma traverse_items_more_fuel (f g : string -> M Record_) :
  (forall path w, fst (g path w) <> OutOfFuel -> f path w = g path w) ->
  forall items result w,
    fst (traverse_items g items result w) <> OutOfFuel ->
    traverse_items f items result w = traverse_items g items result w.
Proof.
  intros Hfg. induction items as [|item rest IH]; intros result w; [reflexivity|].
  cbn [traverse_items]. unfold bind, traverse_item.
  destruct (GitHub.type item).
  - destruct (is_markdown (GitHub.name item)); unfold ret; apply IH.
  - unfold bind.
    destruct (g (GitHub.path item) w) as [[subtree | e | ] w1] eqn:Hg;
      intros Hne.
    + rewrite Hfg, Hg by (rewrite Hg; discriminate). unfold ret. apply IH. exact Hne.
    + rewrite Hfg, Hg by (rewrite Hg; discriminate). reflexivity.
    + exfalso. apply Hne. reflexivity.
Qed.

Lemma traverseRepository_S (fuel : nat) (path : string) :
  traverseRepository network (S fuel) token owner repo path
  = bind (fetchRepository network token owner repo path)
      (fun items =>
         traverse_items (traverseRepository network fuel token owner repo) items []).
Proof. reflexivity. Qed.

Lemma traverseRepository_more_fuel (fuel : nat) :
  forall path w,
    fst (traverseRepository network fuel token owner repo path w) <> OutOfFuel ->
    traverseRepository network (S fuel) token owner repo path w
    = traverseRepository network fuel token owner repo path w.
Proof.
  induction fuel as [|fuel IH]; intros path w Hne.
  - exfalso. apply Hne. reflexivity.
  - rewrite (traverseRepository_S (S fuel)), (traverseRepository_S fuel).
    rewrite traverseRepository_S in Hne.
    unfold bind in *.
    destruct (fetchRepository network token owner repo path w)
      as [[items | e | ] w1]; try reflexivity.
    apply traverse_items_more_fuel; [|exact Hne].
    intros p w2 Hp. apply IH. exact Hp.
Qed.

Lemma tree_built_more_fuel (fuel more : nat) (path : string) :
  tree_built network fuel token owner repo path <> OutOfFuel ->
  tree_built network (more + fuel) token owner repo path
  = tree_built network fuel token owner repo path.
Proof.
  intros Hne. induction more as [|more IH]; [reflexivity|].
  unfold tree_built in *. simpl Nat.add.
  rewrite traverseRepository_more_fuel; [exact IH|].
  rewrite IH. exact Hne.
Qed.

(** *** The tree that a traversal returns *)

Lemma bind_returned {A B} (m : M A) (k : A -> M B) (w w' : world) (b : B) :
  bind m k w = (Returned b, w') ->
  exists a w1, m w = (Returned a, w1) /\ k a w1 = (Returned b, w').
Proof.
  unfold bind. destruct (m w) as [[a | e | ] w1]; try discriminate.
  intros H. exists a, w1. split; [reflexivity | exact H].
Qed.

(** A file entry never makes the loop fail: it adds a Leaf or leaves the
    result as it is. *)
Lemma traverse_item_file (traverse : string -> M Record_) (item : GitHub)
    (result : Record_) (w : world) :
  GitHub.type item = GitHub.file ->
  traverse_item traverse item result w
  = (Returned (if is_markdown (GitHub.name item)
               then set result (GitHub.name item)
                      (value_of_url (GitHub.download_url item))
               else result), w).
Proof.
  intros Hfile. unfold traverse_item. rewrite Hfile.
  destruct (is_markdown (GitHub.name item)); reflexivity.
Qed.

Lemma traverse_items_split (traverse : string -> M Record_)
    (before : list GitHub) (item : GitHub) (after : list GitHub) :
  forall result w tree w',
    traverse_items traverse (before ++ item :: after) result w = (Returned tree, w') ->
    exists r1 w1 r2 w2,
      traverse_items traverse before result w = (Returned r1, w1)
      /\ traverse_item traverse item r1 w1 = (Returned r2, w2)
      /\ traverse_items traverse after r2 w2 = (Returned tree, w').
Proof.
  induction before as [|x before IH]; intros result w tree w' H.
  - simpl in H. apply bind_returned in H. destruct H as [r2 [w2 [Hitem Hafter]]].
    exists result, w, r2, w2. auto.
  - simpl in H. apply bind_returned in H. destruct H as [rx [wx [Hx Hrest]]].
    destruct (IH _ _ _ _ Hrest) as [r1 [w1 [r2 [w2 [Hb [Hi Ha]]]]]].
    exists r1, w1, r2, w2. split; [|auto].
    cbn [traverse_items]. unfold bind. rewrite Hx. exact Hb.
Qed.

(** The entries that are not inserted under the key [k] leave the
    property [k] as it is. *)
Lemma traverse_items_preserves (traverse : string -> M Record_) (k : string) :
  forall items result w tree w',
    traverse_items traverse items result w = (Returned tree, w') ->
    (forall x, In x items ->
               GitHub.name x <> k
               \/ (GitHub.type x = GitHub.file /\ is_markdown (GitHub.name x) = false)) ->
    get tree k = get result k.
Proof.
  induction items as [|item rest IH]; intros result w tree w' H Hitems.
  - simpl in H. injection H as <- _. reflexivity.
  - simpl in H. apply bind_returned in H. destruct H as [r1 [w1 [Hitem Hrest]]].
    rewrite (IH _ _ _ _ Hrest) by (intros x Hx; apply Hitems; right; exact Hx).
    destruct (Hitems item (or_introl eq_refl)) as [Hname | [Hfile Hmd]].
    + unfold traverse_item in Hitem. destruct (GitHub.type item).
      * destruct (is_markdown (GitHub.name item)); injection Hitem as <- _;
          [apply get_set_other; congruence | reflexivity].
      * apply bind_returned in Hitem. destruct Hitem as [sub [w2 [_ Hret]]].
        injection Hret as <- _. apply get_set_other. congruence.
    + rewrite traverse_item_file, Hmd in Hitem by exact Hfile.
      injection Hitem as <- _. reflexivity.
Qed.

Lemma tree_built_items (fuel : nat) (path : string) (items : list GitHub)
    (tree : Record_) :
  listing_succeeds network (listing_request token owner repo path) items ->
  tree_built network (S fuel) token owner repo path = Returned tree ->
  exists w w',
    traverse_items (traverseRepository network fuel token owner repo) items [] w
    = (Returned tree, w').
Proof.
  intros Hitems. unfold tree_built. cbn [traverseRepository]. unfold bind.
  rewrite (fetchRepository_succeeds path items world0 Hitems).
  destruct (traverse_items _ items [] _) as [r w'] eqn:Hrun. simpl.
  intros ->. eauto.
Qed.

Lemma unique_names_after (before : list GitHub) (item : GitHub) (after : list GitHub) :
  NoDup (map GitHub.name (before ++ item :: after)) ->
  forall x, In x (before ++ after) -> GitHub.name x <> GitHub.name item.
Proof.
  rewrite map_app. simpl. intros Hnodup x Hx Heq.
  apply NoDup_remove_2 in Hnodup. apply Hnodup.
  rewrite <- map_app, <- Heq. apply in_map. exact Hx.
Qed.

End Traversal.

(** ** The tree builder's claims *)

(** C7. In a listing whose names are distinct, a file entry is found in
    the tree that [traverseRepository] returns, as a Leaf holding its
    download URL, exactly when its name ends in [.md] or in [.mdx],
    character for character; any other file entry is left out, and no
    file entry makes the loop fail. *)
Theorem markdown_files_are_leaves
    (network : request -> fetch_result) (fuel : nat) (token owner repo path : string)
    (items : list GitHub) (item : GitHub) (tree : Record_) :
  listing_succeeds network (listing_request token owner repo path) items ->
  NoDup (map GitHub.name items) ->
  In item items ->
  GitHub.type item = GitHub.file ->
  tree_built network (S fuel) token owner repo path = Returned tree ->
  (forall traverse result w,
      exists result', traverse_item traverse item result w = (Returned result', w))
  /\ (((has_suffix ".md" (GitHub.name item) \/ has_suffix ".mdx" (GitHub.name item))
       /\ get tree (GitHub.name item)
          = Some (value_of_url (GitHub.download_url item)))
      \/ ((~ has_suffix ".md" (GitHub.name item)
           /\ ~ has_suffix ".mdx" (GitHub.name item))
          /\ get tree (GitHub.name item) = None)).
Proof.
  intros Hlisting Hnodup Hin Hfile Hbuilt. split.
  - intros traverse result w. eexists. apply traverse_item_file. exact Hfile.
  - destruct (tree_built_items network token owner repo fuel path items tree
                Hlisting Hbuilt) as [w [w' Hrun]].
    destruct (in_split item items Hin) as [before [after Hsplit]]. subst items.
    pose proof (unique_names_after before item after Hnodup) as Hothers.
    destruct (is_markdown (GitHub.name item)) eqn:Hmd.
    + left. split; [apply is_markdown_suffix; exact Hmd|].
      destruct (traverse_items_split _ _ _ _ _ _ _ _ Hrun)
        as [r1 [w1 [r2 [w2 [_ [Hitem Hafter]]]]]].
      rewrite traverse_item_file, Hmd in Hitem by exact Hfile.
      injection Hitem as <- _.
      rewrite (traverse_items_preserves _ (GitHub.name item) _ _ _ _ _ Hafter).
      * apply get_set_same.
      * intros x Hx. left. apply Hothers. apply in_or_app. right. exact Hx.
    + right. split.
      * split; intros Hsuffix;
          assert (is_markdown (GitHub.name item) = true) as Habs
            by (apply is_markdown_suffix; auto);
          rewrite Hmd in Habs; discriminate.
      * rewrite (traverse_items_preserves _ (GitHub.name item) _ _ _ _ _ Hrun);
          [reflexivity|].
        intros x Hx. apply in_app_or in Hx. destruct Hx as [Hx | [<- | Hx]].
        -- left. apply Hothers. apply in_or_app. left. exact Hx.
        -- right. auto.
        -- left. apply Hothers. apply in_or_app. right. exact Hx.
Qed.

(** C8. If the listing API signals a failure for the query of the root
    path or for any query that the traversal makes below it, the
    traversal as a whole ends in that failure, thrown unchanged: it
    returns no tree. *)
Theorem listing_failure_is_fatal
    (network : request -> fetch_result) (fuel : nat) (token owner repo path : string)
    (rq : request) (e : thrown) :
  listing_fails network rq e ->
  rq = listing_request token owner repo path
  \/ In rq (queries network (S fuel) token owner repo path) ->
  tree_built network (S fuel) token owner repo path = Thrown e.
Proof.
  intros Hfails [-> | Hin].
  - eapply queries_failure; [apply root_query_made | exact Hfails].
  - eapply queries_failure; eassumption.
Qed.

(** C9. In a listing whose names are distinct, every directory entry is
    found in the tree that [traverseRepository] returns, under its name,
    holding the subtree built for its path, whatever that subtree is: an
    empty subtree is kept like any other. *)
Theorem directories_are_kept
    (network : request -> fetch_result) (fuel : nat) (token owner repo path : string)
    (items : list GitHub) (item : GitHub) (tree : Record_) :
  listing_succeeds network (listing_request token owner repo path) items ->
  NoDup (map GitHub.name items) ->
  In item items ->
  GitHub.type item = GitHub.dir ->
  tree_built network (S fuel) token owner repo path = Returned tree ->
  exists subtree,
    tree_built network fuel token owner repo (GitHub.path item) = Returned subtree
    /\ get tree (GitHub.name item) = Some (VObject subtree).
Proof.
  intros Hlisting Hnodup Hin Hdir Hbuilt.
  destruct (tree_built_items network token owner repo fuel path items tree
              Hlisting Hbuilt) as [w [w' Hrun]].
  destruct (in_split item items Hin) as [before [after Hsplit]]. subst items.
  pose proof (unique_names_after before item after Hnodup) as Hothers.
  destruct (traverse_items_split _ _ _ _ _ _ _ _ Hrun)
    as [r1 [w1 [r2 [w2 [_ [Hitem Hafter]]]]]].
  unfold traverse_item in Hitem. rewrite Hdir in Hitem.
  apply bind_returned in Hitem. destruct Hitem as [subtree [w3 [Hsub Hret]]].
  injection Hret as <- _.
  exists subtree. split.
  - rewrite traverseRepository_run in Hsub. injection Hsub as Hsub _. exact Hsub.
  - rewrite (traverse_items_preserves _ (GitHub.name item) _ _ _ _ _ Hafter).
    + apply get_set_same.
    + intros x Hx. left. apply Hothers. apply in_or_app. right. exact Hx.
Qed.

(** ** Witnesses and scenarios *)

Lemma failed_fetch_is_isolated_witness :
  exists stats w',
    analyzeRepository (sample_network network_down) sample_tree world0
    = (Returned stats, w')
    /\ fileCount stats = count_url_leaves sample_tree
    /\ wordCount stats
       = list_sum (map (words_at (sample_network network_down))
                       (filter (fun u => negb (String.eqb u (raw "docs/b.md")))
                               (leaf_urls sample_tree)))
    /\ totalSize stats
       = list_sum (map (size_at (sample_network network_down))
                       (filter (fun u => negb (String.eqb u (raw "docs/b.md")))
                               (leaf_urls sample_tree))).
Proof.
  apply (failed_fetch_is_isolated (sample_network network_down) sample_tree world0
           (raw "docs/b.md")).
  apply (fails_rejected _ _ (ErrorObject "network down")). reflexivity.
Defined.

Lemma wordCount_sums_tokens_witness :
  exists stats w',
    analyzeRepository (sample_network (body_response [])) sample_tree world0
    = (Returned stats, w')
    /\ length (bodies (sample_network (body_response [])) sample_tree)
       = count_url_leaves sample_tree
    /\ wordCount stats
       = list_sum (map spec_word_count
                       (bodies (sample_network (body_response [])) sample_tree))
    /\ (forall body, trim body = [] -> countWords body = 0).
Proof.
  apply (wordCount_sums_tokens (sample_network (body_response [])) sample_tree world0).
  simpl. intros url [<- | [<- | []]]; eexists; reflexivity.
Defined.

Lemma statistics_order_independent_witness :
  exists stats w1 w2,
    analyzeRepository (sample_network network_down) sample_tree world0
    = (Returned stats, w1)
    /\ analyzeRepository (sample_network network_down) sample_tree_swapped world0
       = (Returned stats, w2).
Proof.
  apply (statistics_order_independent (sample_network network_down)
           sample_tree sample_tree_swapped world0).
  apply reorder_here. apply perm_swap.
Defined.

Lemma assets_listing :
  listing_succeeds assets_network (listing_request "token" "owner" "repo" "")
    [entry "assets" "assets" GitHub.dir None;
     entry "guide.md" "guide.md" GitHub.file (Some (raw "guide.md"));
     entry "readme.MD" "readme.MD" GitHub.file (Some (raw "readme.MD"))].
Proof. eexists. split; [reflexivity | split; reflexivity]. Qed.

Lemma assets_names_distinct :
  NoDup (map GitHub.name
           [entry "assets" "assets" GitHub.dir None;
            entry "guide.md" "guide.md" GitHub.file (Some (raw "guide.md"));
            entry "readme.MD" "readme.MD" GitHub.file (Some (raw "readme.MD"))]).
Proof.
  simpl. repeat constructor; simpl; intuition discriminate.
Qed.

Lemma markdown_files_are_leaves_witness :
  (forall traverse result w,
      exists result',
        traverse_item traverse
          (entry "readme.MD" "readme.MD" GitHub.file (Some (raw "readme.MD")))
          result w = (Returned result', w))
  /\ (((has_suffix ".md" "readme.MD" \/ has_suffix ".mdx" "readme.MD")
       /\ get [("assets", VObject []); ("guide.md", VString (raw "guide.md"))] "readme.MD"
          = Some (VString (raw "readme.MD")))
      \/ ((~ has_suffix ".md" "readme.MD" /\ ~ has_suffix ".mdx" "readme.MD")
          /\ get [("assets", VObject []); ("guide.md", VString (raw "guide.md"))]
               "readme.MD" = None)).
Proof.
  apply (markdown_files_are_leaves assets_network 1 "token" "owner" "repo" ""
           _ (entry "readme.MD" "readme.MD" GitHub.file (Some (raw "readme.MD")))
           _ assets_listing assets_names_distinct).
  - simpl. auto.
  - reflexivity.
  - reflexivity.
Defined.

Lemma listing_failure_is_fatal_witness :
  tree_built refused_network 2 "token" "owner" "repo" ""
  = Thrown (ErrorObject
      "⛔ Failed to fetch https://api.github.com/repos/owner/repo/contents/drafts: Forbidden").
Proof.
  apply (listing_failure_is_fatal refused_network 1 "token" "owner" "repo" ""
           (listing_request "token" "owner" "repo" "drafts")).
  - exact (listing_status refused_network
             (listing_request "token" "owner" "repo" "drafts")
             {| Response.ok := false; Response.statusText := "Forbidden";
                Response.json := inr []; Response.text := inr [] |}
             eq_refl eq_refl).
  - right. vm_compute. auto.
Defined.

Lemma directories_are_kept_witness :
  exists subtree,
    tree_built assets_network 1 "token" "owner" "repo" "assets" = Returned subtree
    /\ get [("assets", VObject []); ("guide.md", VString (raw "guide.md"))] "assets"
       = Some (VObject subtree).
Proof.
  apply (directories_are_kept assets_network 1 "token" "owner" "repo" ""
           _ (entry "assets" "assets" GitHub.dir None)
           _ assets_listing assets_names_distinct).
  - simpl. auto.
  - reflexivity.
  - reflexivity.
Defined.

(** The directory [assets] holds no markdown file: it is in the tree, as
    an empty subtree; [guide.md] is a Leaf and [readme.MD] is left out. *)
Example assets_tree :
  tree_built assets_network 2 "token" "owner" "repo" ""
  = Returned [("assets", VObject []); ("guide.md", VString (raw "guide.md"))].
Proof. reflexivity. Qed.

Example is_markdown_cases :
  is_markdown "guide.md" = true /\ is_markdown "guide.mdx" = true
  /\ is_markdown "readme.MD" = false /\ is_markdown "c.txt" = false
  /\ is_markdown "md" = false.
Proof. repeat split; reflexivity. Qed.

(** [a.md] holds "hello world", [docs/b.md] is empty, [docs/c.txt] is
    ignored, and every fetch succeeds. *)
Example scenario_all_fetched :
  fst (traverse_then_analyze (sample_network (body_response [])) 2
         "token" "owner" "repo" world0)
  = Returned
      ([("a.md", VString (raw "a.md"));
        ("docs", VObject [("b.md", VString (raw "docs/b.md"))])],
       {| folderCount := 1; fileCount := 2; wordCount := 2; totalSize := 11 |}).
Proof. reflexivity. Qed.

(** The same repository when the fetch of [docs/b.md] fails: the run
    completes with the same statistics and one line on the console. *)
Example scenario_one_fetch_fails :
  fst (traverse_then_analyze (sample_network network_down) 2
         "token" "owner" "repo" world0)
  = Returned
      ([("a.md", VString (raw "a.md"));
        ("docs", VObject [("b.md", VString (raw "docs/b.md"))])],
       {| folderCount := 1; fileCount := 2; wordCount := 2; totalSize := 11 |})
  /\ console (snd (traverse_then_analyze (sample_network network_down) 2
                     "token" "owner" "repo" world0))
     = ["⛔ Error fetching file b.md: network down"].
Proof. split; reflexivity. Qed.

(** The listing of the root fails: one failure, and no statistics. *)
Example scenario_root_listing_fails :
  traverse_then_analyze offline_network 2 "token" "owner" "repo" world0
  = (Thrown (ErrorObject "network down"),
     add_requests [listing_request "token" "owner" "repo" ""] world0).
Proof. reflexivity. Qed.

(** A deeper bound does not change the tree of the sample repository. *)
Example sample_fuel :
  tree_built (sample_network network_down) 2 "token" "owner" "repo" ""
  = tree_built (sample_network network_down) 7 "token" "owner" "repo" "".
Proof. reflexivity. Qed.

Example countWords_examples :
  countWords (text_of_string "hello world") = 2
  /\ countWords [] = 0
  /\ countWords (text_of_string "   ") = 0
  /\ countWords (text_of_string "  a  b c ") = 3.
Proof. repeat split; reflexivity. Qed.

Example split_keeps_empty_pieces :
  split_whitespace (text_of_string " a  b ")
  = [[]; text_of_string "a"; text_of_string "b"; []].
Proof. reflexivity. Qed.

(** Array indices come first, in numeric order, whenever they are set. *)
Example set_orders_array_indices :
  map fst (set (set (set [] "docs" VNull) "10" VNull) "2" VNull) = ["2"; "10"; "docs"].
Proof. reflexivity. Qed.


(** * Further properties of the program *)

(** ** Words *)

Lemma tokens_from_nil (s cur : utf16) :
  tokens_from cur s = [] <-> cur = [] /\ Forall (fun c => isWhiteSpace c = true) s.
Proof.
  revert cur. induction s as [|c s IH]; intros cur; simpl.
  - destruct cur; simpl; split.
    + intros _. split; [reflexivity | constructor].
    + reflexivity.
    + discriminate.
    + intros [H _]. discriminate.
  - destruct (isWhiteSpace c) eqn:Hc.
    + split.
      * intros H. apply app_eq_nil in H. destruct H as [Hcur Hrest].
        apply IH in Hrest. destruct Hrest as [_ Hrest].
        split; [destruct cur; [reflexivity | discriminate]|].
        constructor; assumption.
      * intros [-> Hall]. inversion Hall; subst. simpl.
        apply IH. split; [reflexivity | assumption].
    + rewrite IH. split.
      * intros [H _]. destruct cur; discriminate.
      * intros [_ Hall]. inversion Hall as [|? ? Hws _]; subst. congruence.
Qed.

Lemma tokens_from_separator (w : code_unit) (t : utf16) :
  isWhiteSpace w = true ->
  forall s cur, tokens_from cur (s ++ w :: t) = tokens_from cur s ++ tokens t.
Proof.
  intros Hw. induction s as [|c s IH]; intros cur; simpl.
  - rewrite Hw. reflexivity.
  - destruct (isWhiteSpace c); rewrite IH; [rewrite app_assoc|]; reflexivity.
Qed.

Lemma tokens_from_length (s cur : utf16) :
  length (tokens_from cur s)
  <= length s + (if is_empty_text cur then 0 else 1).
Proof.
  revert cur. induction s as [|c s IH]; intros cur; simpl.
  - destruct cur; simpl; lia.
  - destruct (isWhiteSpace c).
    + rewrite length_app. specialize (IH []). simpl in IH.
      destruct cur; simpl; lia.
    + specialize (IH (cur ++ [c])). rewrite is_empty_text_snoc in IH.
      destruct cur; simpl in *; lia.
Qed.

Lemma countWords_le_length (content : utf16) : countWords content <= length content.
Proof.
  rewrite countWords_tokens. unfold tokens.
  pose proof (tokens_from_length content []) as H. simpl in H. lia.
Qed.

(** X1. The words of a body are counted as zero exactly when the body
    holds nothing but white space (the empty body included). *)
Theorem countWords_zero_iff_blank (content : utf16) :
  countWords content = 0 <-> Forall (fun c => isWhiteSpace c = true) content.
Proof.
  rewrite countWords_tokens. unfold tokens. split.
  - intros H. apply length_zero_iff_nil in H. apply tokens_from_nil in H. apply H.
  - intros H. apply length_zero_iff_nil. apply tokens_from_nil. auto.
Qed.

(** X2. The count is additive over two texts joined by a white-space
    character. *)
Theorem countWords_separator (s t : utf16) (w : code_unit) :
  isWhiteSpace w = true ->
  countWords (s ++ w :: t) = countWords s + countWords t.
Proof.
  intros Hw. rewrite !countWords_tokens. unfold tokens at 1.
  rewrite (tokens_from_separator w t Hw). rewrite length_app. reflexivity.
Qed.

Lemma countWords_separator_witness :
  countWords (text_of_string "hello world" ++ 10%N :: text_of_string "docs  see")
  = countWords (text_of_string "hello world") + countWords (text_of_string "docs  see").
Proof.
  apply (countWords_separator (text_of_string "hello world")
           (text_of_string "docs  see") 10%N).
  reflexivity.
Defined.

(** ** The run of [analyzeRepository] *)

Lemma reported_length (network : request -> fetch_result) (tree : value) :
  length (reported network tree)
  = length (filter (fun u => match caught network u with
                             | Some _ => true
                             | None => false
                             end) (leaf_urls tree)).
Proof.
  induction tree as [s| |props IH] using value_induction; try reflexivity.
  simpl. induction IH as [|[k v] rest Hv _ IHrest]; simpl; [reflexivity|].
  rewrite filter_app, !length_app, IHrest. simpl in Hv. f_equal.
  destruct v as [u| |sub]; simpl in *; try assumption.
  destruct (caught network u); reflexivity.
Qed.

(** X3. An aggregation requests each content URL of the tree once per
    Leaf that holds it, in the order of the traversal, and sends no
    header with any of these requests. *)
Theorem analyzeRepository_requests
    (network : request -> fetch_result) (tree : value) (w : world) :
  requests (snd (analyzeRepository network tree w))
  = requests w
    ++ map (fun u => {| req_url := u; req_headers := [] |}) (leaf_urls tree).
Proof. rewrite analyzeRepository_run. reflexivity. Qed.

(** X4. An aggregation writes one line to the console for each Leaf whose
    fetch is rejected or whose body cannot be read, and nothing else: a
    response whose status is not a success leaves no trace. *)
Theorem analyzeRepository_console
    (network : request -> fetch_result) (tree : value) (w : world) :
  exists lines,
    console (snd (analyzeRepository network tree w)) = console w ++ lines
    /\ length lines
       = length (filter (fun u => match caught network u with
                                  | Some _ => true
                                  | None => false
                                  end) (leaf_urls tree)).
Proof.
  exists (reported network tree). rewrite analyzeRepository_run.
  split; [reflexivity | apply reported_length].
Qed.

(** X5. When every content URL is answered with a status that is not a
    success, the aggregation returns with every file counted, no word, no
    size, and the console as it was. *)
Theorem refused_bodies_are_silent
    (network : request -> fetch_result) (tree : value) (w : world) :
  (forall u, In u (leaf_urls tree) ->
             exists r, network (body_request u) = Resolves r
                       /\ Response.ok r = false) ->
  exists stats w',
    analyzeRepository network tree w = (Returned stats, w')
    /\ fileCount stats = count_url_leaves tree
    /\ wordCount stats = 0 /\ totalSize stats = 0
    /\ console w' = console w.
Proof.
  intros Hall.
  exists (stats_of network tree), (after_analysis network tree w).
  split; [apply analyzeRepository_run|].
  split; [apply count_url_leaves_length|].
  assert (Hnone : forall u, In u (leaf_urls tree) ->
                            fetched network u = None /\ caught network u = None).
  { intros u Hu. destruct (Hall u Hu) as [r [Hr Hok]].
    unfold fetched, caught. rewrite Hr, Hok. split; reflexivity. }
  split; [|split].
  - simpl. induction (leaf_urls tree) as [|u urls IH]; simpl; [reflexivity|].
    unfold words_at at 1. rewrite (proj1 (Hnone u (or_introl eq_refl))).
    apply IH; intros; [apply Hall | apply Hnone]; right; assumption.
  - simpl. induction (leaf_urls tree) as [|u urls IH]; simpl; [reflexivity|].
    unfold size_at at 1. rewrite (proj1 (Hnone u (or_introl eq_refl))).
    apply IH; intros; [apply Hall | apply Hnone]; right; assumption.
  - simpl. pose proof (reported_length network tree) as Hlen.
    replace (filter _ (leaf_urls tree)) with (@nil string) in Hlen.
    + apply length_zero_iff_nil in Hlen. rewrite Hlen. apply app_nil_r.
    + clear Hlen Hall. induction (leaf_urls tree) as [|u urls IH]; simpl; [reflexivity|].
      rewrite (proj2 (Hnone u (or_introl eq_refl))).
      apply IH. intros; apply Hnone; right; assumption.
Qed.

Lemma refused_bodies_are_silent_witness :
  exists stats w',
    analyzeRepository not_found_network sample_tree world0 = (Returned stats, w')
    /\ fileCount stats = count_url_leaves sample_tree
    /\ wordCount stats = 0 /\ totalSize stats = 0
    /\ console w' = console world0.
Proof.
  apply (refused_bodies_are_silent not_found_network sample_tree world0).
  intros u _. eexists. split; reflexivity.
Defined.

(** X6. The statistics of every tree satisfy [wordCount <= totalSize], and
    when no file is counted both are zero. *)
Theorem statistics_bounds
    (network : request -> fetch_result) (tree : value) (w : world) :
  exists stats w',
    analyzeRepository network tree w = (Returned stats, w')
    /\ wordCount stats <= totalSize stats
    /\ (fileCount stats = 0 -> wordCount stats = 0 /\ totalSize stats = 0).
Proof.
  exists (stats_of network tree), (after_analysis network tree w).
  split; [apply analyzeRepository_run|]. simpl. split.
  - induction (leaf_urls tree) as [|u urls IH]; simpl; [lia|].
    assert (words_at network u <= size_at network u).
    { unfold words_at, size_at. destruct (fetched network u);
        [apply countWords_le_length | lia]. }
    lia.
  - intros H. apply length_zero_iff_nil in H. rewrite H. split; reflexivity.
Qed.

(** X7. The statistics of a mapping are the field by field sum of the
    statistics of its parts, and a mapping nested under a key adds one
    folder to its own statistics. *)
Theorem statistics_compose
    (network : request -> fetch_result) (ps qs : Record_) (k : string) :
  exists s1 s2,
    statistics network (VObject ps) = Some s1
    /\ statistics network (VObject qs) = Some s2
    /\ statistics network (VObject (ps ++ qs)) = Some (merge s1 s2)
    /\ statistics network (VObject [(k, VObject ps)])
       = Some (merge s1 {| folderCount := 1; fileCount := 0;
                           wordCount := 0; totalSize := 0 |}).
Proof.
  exists (stats_of network (VObject ps)), (stats_of network (VObject qs)).
  rewrite !statistics_stats_of.
  split; [reflexivity|]. split; [reflexivity|]. split; f_equal.
  - apply Analysis_eq; simpl;
      rewrite ?flat_map_app, ?map_app, ?list_sum_app, ?length_app; lia.
  - apply Analysis_eq; simpl; rewrite ?app_nil_r; lia.
Qed.

(** ** The tree that [traverseRepository] builds *)

Lemma has_key_In (o : Record_) (k : string) :
  has_key o k = true <-> In k (map fst o).
Proof.
  unfold has_key. induction o as [|[k0 v0] o IH]; simpl.
  - split; [discriminate | intros []].
  - destruct (String.eqb_spec k0 k) as [-> | Hne].
    + split; auto.
    + rewrite IH. split; [auto | intros [H | H]; [congruence | exact H]].
Qed.

Lemma replace_value_keys (o : Record_) (k : string) (v : value) :
  map fst (replace_value o k v) = map fst o.
Proof.
  induction o as [|[k0 v0] o IH]; simpl; [reflexivity|].
  destruct (String.eqb k0 k); simpl; [reflexivity | rewrite IH; reflexivity].
Qed.

Lemma replace_value_In (o : Record_) (k : string) (v : value) (k' : string) (v' : value) :
  In (k', v') (replace_value o k v) -> (k', v') = (k, v) \/ In (k', v') o.
Proof.
  induction o as [|[k0 v0] o IH]; simpl; [intros []|].
  destruct (String.eqb_spec k0 k) as [-> | Hne]; simpl.
  - intros [H | H]; [left; symmetry; exact H | right; right; exact H].
  - intros [H | H]; [right; left; exact H|].
    destruct (IH H) as [Heq | Hin]; [left; exact Heq | right; right; exact Hin].
Qed.

Lemma insert_index_Permutation (o : Record_) (i : N) (k : string) (v : value) :
  Permutation ((k, v) :: o) (insert_index o i k v).
Proof.
  induction o as [|[k0 v0] o IH]; simpl; [apply Permutation_refl|].
  destruct (array_index k0) as [j|]; [destruct (j <? i)%N|];
    try apply Permutation_refl.
  eapply Permutation_trans; [apply perm_swap|].
  apply perm_skip. exact IH.
Qed.

Lemma set_In (o : Record_) (k : string) (v : value) (k' : string) (v' : value) :
  In (k', v') (set o k v) -> (k', v') = (k, v) \/ In (k', v') o.
Proof.
  unfold set. destruct (has_key o k).
  - apply replace_value_In.
  - destruct (array_index k) as [i|].
    + intros H.
      apply (Permutation_in _ (Permutation_sym (insert_index_Permutation o i k v))) in H.
      destruct H as [H | H]; [left; symmetry; exact H | right; exact H].
    + intros H. apply in_app_or in H.
      destruct H as [H | [H | []]]; [right; exact H | left; symmetry; exact H].
Qed.

Lemma set_keys_NoDup (o : Record_) (k : string) (v : value) :
  NoDup (map fst o) -> NoDup (map fst (set o k v)).
Proof.
  intros Hnodup. unfold set. destruct (has_key o k) eqn:Hk.
  - rewrite replace_value_keys. exact Hnodup.
  - assert (Hnew : ~ In k (map fst o)).
    { intros Hin. apply has_key_In in Hin. congruence. }
    destruct (array_index k) as [i|].
    + eapply Permutation_NoDup.
      * apply Permutation_map. apply insert_index_Permutation.
      * simpl. constructor; assumption.
    + rewrite map_app. simpl.
      eapply Permutation_NoDup; [apply Permutation_cons_append|].
      constructor; assumption.
Qed.

Section Built.

Variable network : request -> fetch_result.
Variables token owner repo : string.

(** A property of the empty mapping that every insertion of the loop
    keeps holds of every tree returned. *)
Lemma traverseRepository_invariant (I : Record_ -> Prop) :
  I [] ->
  (forall result name subtree,
      I result -> I subtree -> I (set result name (VObject subtree))) ->
  (forall result name download_url,
      is_markdown name = true -> I result ->
      I (set result name (value_of_url download_url))) ->
  forall fuel path w tree w',
    traverseRepository network fuel token owner repo path w = (Returned tree, w') ->
    I tree.
Proof.
  intros Hempty Hdir Hfile.
  induction fuel as [|fuel IH]; intros path w tree w' Hrun; [discriminate|].
  cbn [traverseRepository] in Hrun.
  apply bind_returned in Hrun. destruct Hrun as [items [w1 [_ Hitems]]].
  assert (Hloop : forall items result w tree w',
             traverse_items (traverseRepository network fuel token owner repo)
               items result w = (Returned tree, w') ->
             I result -> I tree).
  { clear - IH Hdir Hfile.
    induction items as [|item rest IHrest]; intros result w tree w' Hrun Hres.
    - simpl in Hrun. injection Hrun as <- _. exact Hres.
    - cbn [traverse_items] in Hrun. apply bind_returned in Hrun.
      destruct Hrun as [r1 [w1 [Hitem Hrest]]].
      apply (IHrest _ _ _ _ Hrest).
      unfold traverse_item in Hitem. destruct (GitHub.type item).
      + destruct (is_markdown (GitHub.name item)) eqn:Hmd;
          injection Hitem as <- _; [apply Hfile; assumption | exact Hres].
      + apply bind_returned in Hitem. destruct Hitem as [sub [w2 [Hsub Hret]]].
        injection Hret as <- _. apply Hdir; [exact Hres | exact (IH _ _ _ _ Hsub)]. }
  exact (Hloop _ _ _ _ _ Hitems Hempty).
Qed.

Lemma tree_built_run (fuel : nat) (path : string) (tree : Record_) :
  tree_built network fuel token owner repo path = Returned tree ->
  exists w',
    traverseRepository network fuel token owner repo path world0 = (Returned tree, w').
Proof.
  unfold tree_built.
  destruct (traverseRepository network fuel token owner repo path world0) as [r w'].
  simpl. intros ->. exists w'. reflexivity.
Qed.

(** In a tree that [traverseRepository] returns, the keys of every
    mapping, at any depth, are distinct, whatever the listings hold: an
    entry whose name was already inserted replaces the earlier one. *)
Theorem built_tree_well_keyed (fuel : nat) (path : string) (tree : Record_) :
  tree_built network fuel token owner repo path = Returned tree ->
  well_keyed (VObject tree).
Proof.
  intros Hbuilt. destruct (tree_built_run fuel path tree Hbuilt) as [w' Hrun].
  apply (traverseRepository_invariant (fun t => well_keyed (VObject t)))
    with (fuel := fuel) (path := path) (w := world0) (w' := w'); [| | |exact Hrun].
  - constructor; [constructor | intros k v []].
  - intros result name subtree Hres Hsub.
    inversion Hres as [| |props Hnodup Hall]; subst.
    constructor; [apply set_keys_NoDup; exact Hnodup|].
    intros k v Hin. apply set_In in Hin. destruct Hin as [Heq | Hin].
    + injection Heq as _ ->. exact Hsub.
    + exact (Hall k v Hin).
  - intros result name download_url _ Hres.
    inversion Hres as [| |props Hnodup Hall]; subst.
    constructor; [apply set_keys_NoDup; exact Hnodup|].
    intros k v Hin. apply set_In in Hin. destruct Hin as [Heq | Hin].
    + injection Heq as _ ->. destruct download_url; constructor.
    + exact (Hall k v Hin).
Qed.

(** X8. In a tree that [traverseRepository] returns, every Leaf, at any
    depth, has a key that ends in [.md] or [.mdx], whatever the listings
    hold. *)
Theorem built_tree_leaves_are_markdown (fuel : nat) (path : string) (tree : Record_) :
  tree_built network fuel token owner repo path = Returned tree ->
  leaves_are_markdown (VObject tree).
Proof.
  intros Hbuilt. destruct (tree_built_run fuel path tree Hbuilt) as [w' Hrun].
  apply (traverseRepository_invariant (fun t => leaves_are_markdown (VObject t)))
    with (fuel := fuel) (path := path) (w := world0) (w' := w'); [| | |exact Hrun].
  - constructor; intros k v [].
  - intros result name subtree Hres Hsub.
    inversion Hres as [| |props Hleaf Hall]; subst.
    constructor; intros k v Hin; apply set_In in Hin; destruct Hin as [Heq | Hin].
    + injection Heq as _ ->. discriminate.
    + exact (Hleaf k v Hin).
    + injection Heq as _ ->. exact Hsub.
    + exact (Hall k v Hin).
  - intros result name download_url Hmd Hres.
    inversion Hres as [| |props Hleaf Hall]; subst.
    constructor; intros k v Hin; apply set_In in Hin; destruct Hin as [Heq | Hin].
    + injection Heq as -> _. intros _. exact Hmd.
    + exact (Hleaf k v Hin).
    + injection Heq as _ ->. destruct download_url; constructor.
    + exact (Hall k v Hin).
Qed.

Lemma traverse_items_listing_queries (traverse : string -> M Record_)
    (L : request -> Prop) :
  (forall path w, exists qs,
      snd (traverse path w) = add_requests qs w /\ Forall L qs) ->
  forall items result w, exists qs,
    snd (traverse_items traverse items result w) = add_requests qs w /\ Forall L qs.
Proof.
  intros Htraverse. induction items as [|item rest IH]; intros result w.
  - exists []. simpl. rewrite add_requests_nil. split; [reflexivity | constructor].
  - cbn [traverse_items]. unfold bind at 1, traverse_item.
    destruct (GitHub.type item).
    + destruct (is_markdown (GitHub.name item)); unfold ret; apply IH.
    + unfold bind. destruct (Htraverse (GitHub.path item) w) as [qs1 [Hw1 Hqs1]].
      destruct (traverse (GitHub.path item) w) as [[sub | e | ] w1];
        simpl in Hw1; subst w1; try (exists qs1; split; [reflexivity | exact Hqs1]).
      unfold ret.
      destruct (IH (set result (GitHub.name item) (VObject sub)) (add_requests qs1 w))
        as [qs2 [Hw2 Hqs2]].
      exists (qs1 ++ qs2). rewrite Hw2, add_requests_app.
      split; [reflexivity | apply Forall_app; split; assumption].
Qed.

Lemma traverseRepository_listing_queries (fuel : nat) :
  forall path w, exists qs,
    snd (traverseRepository network fuel token owner repo path w) = add_requests qs w
    /\ Forall (fun rq => exists p, rq = listing_request token owner repo p) qs.
Proof.
  induction fuel as [|fuel IH]; intros path w.
  - exists []. simpl. rewrite add_requests_nil. split; [reflexivity | constructor].
  - cbn [traverseRepository]. unfold bind.
    destruct (fetchRepository_uniform network token owner repo path)
      as [r1 [[Hrun _] _]].
    rewrite Hrun.
    assert (Hroot : Forall (fun rq => exists p, rq = listing_request token owner repo p)
                      [listing_request token owner repo path]).
    { constructor; [exists path; reflexivity | constructor]. }
    destruct r1 as [items | e | ];
      try (exists [listing_request token owner repo path];
           split; [reflexivity | exact Hroot]).
    destruct (traverse_items_listing_queries _ _ IH items []
                (add_requests [listing_request token owner repo path] w))
      as [qs2 [Hw2 Hqs2]].
    exists ([listing_request token owner repo path] ++ qs2).
    rewrite Hw2, add_requests_app.
    split; [reflexivity | apply Forall_app; split; assumption].
Qed.

(** X9. Every request that a traversal makes is a listing request: it
    goes to the contents URL of the repository for some path and carries
    the token in its [Authorization] header; and the traversal writes
    nothing to the console. *)
Theorem traversal_requests (fuel : nat) (path : string) (w : world) :
  Forall (fun rq =>
            exists p,
              req_url rq = apiURL_of owner repo p
              /\ req_headers rq
                 = [("Authorization", ("token " ++ token)%string);
                    ("Accept", "application/vnd.github.v3+json")])
         (queries network fuel token owner repo path)
  /\ requests (snd (traverseRepository network fuel token owner repo path w))
     = requests w ++ queries network fuel token owner repo path
  /\ console (snd (traverseRepository network fuel token owner repo path w))
     = console w.
Proof.
  split; [|rewrite traverseRepository_run; split; reflexivity].
  destruct (traverseRepository_listing_queries fuel path world0) as [qs [Hw Hqs]].
  unfold queries. rewrite Hw. simpl.
  eapply Forall_impl; [|exact Hqs].
  intros rq [p ->]. exists p. split; reflexivity.
Qed.

End Built.

Lemma built_tree_well_keyed_witness :
  well_keyed (VObject [("assets", VObject []); ("guide.md", VString (raw "guide.md"))]).
Proof.
  apply (built_tree_well_keyed assets_network "token" "owner" "repo" 2 "").
  reflexivity.
Defined.

Lemma built_tree_leaves_are_markdown_witness :
  leaves_are_markdown
    (VObject [("a.md", VString (raw "a.md"));
              ("docs", VObject [("b.md", VString (raw "docs/b.md"))])]).
Proof.
  apply (built_tree_leaves_are_markdown (sample_network network_down)
           "token" "owner" "repo" 2 "").
  reflexivity.
Defined.

(** ** [renderHTML] *)

Lemma string_app_assoc (a b c : string) :
  ((a ++ b) ++ c)%string = (a ++ (b ++ c))%string.
Proof. induction a as [|x a IH]; simpl; [reflexivity | rewrite IH; reflexivity]. Qed.

Lemma string_app_nil_r (a : string) : (a ++ EmptyString)%string = a.
Proof. induction a as [|x a IH]; simpl; [reflexivity | rewrite IH; reflexivity]. Qed.

(** The loop appends to the string built so far. *)
Lemma render_loop_html (render : value -> string) (entries : Record_) :
  forall html,
    render_loop render entries html
    = (html ++ render_loop render entries EmptyString)%string.
Proof.
  induction entries as [|[key v] rest IH]; intros html; simpl.
  - rewrite string_app_nil_r. reflexivity.
  - destruct (String.eqb (typeof v) "string").
    + rewrite (IH (html ++ _)%string), (IH (file_item _ _)).
      apply string_app_assoc.
    + rewrite (IH (html ++ _)%string), (IH (folder_item _ _)).
      apply string_app_assoc.
Qed.

(** The text that one entry adds to the page. *)
Lemma render_loop_entry (render : value -> string) (ps qs : Record_)
    (key : string) (v : value) :
  render_loop render (ps ++ (key, v) :: qs) EmptyString
  = (render_loop render ps EmptyString
     ++ (if String.eqb (typeof v) "string"
         then file_item key (string_of v)
         else folder_item key (render v))
     ++ render_loop render qs EmptyString)%string.
Proof.
  induction ps as [|[k0 v0] ps IH]; simpl.
  - destruct (String.eqb (typeof v) "string"); apply render_loop_html.
  - destruct (String.eqb (typeof v0) "string");
      rewrite render_loop_html, IH, (render_loop_html render ps (_ _ _));
      rewrite !string_app_assoc; reflexivity.
Qed.

Lemma renderHTML_object (props : Record_) :
  renderHTML (VObject props)
  = ("<ul class='tree'>" ++ render_loop renderHTML props EmptyString ++ "</ul>")%string.
Proof.
  cbn [renderHTML]. rewrite render_loop_html. apply string_app_assoc.
Qed.

Lemma occurs_refl (p : string) : occurs p p.
Proof. exists EmptyString, EmptyString. rewrite string_app_nil_r. reflexivity. Qed.

Lemma occurs_app_l (p s after : string) : occurs p s -> occurs p (s ++ after).
Proof.
  intros [b [a ->]]. exists b, (a ++ after)%string.
  rewrite !string_app_assoc. reflexivity.
Qed.

Lemma occurs_app_r (p s before : string) : occurs p s -> occurs p (before ++ s).
Proof.
  intros [b [a ->]]. exists (before ++ b)%string, a.
  rewrite !string_app_assoc. reflexivity.
Qed.

(** X10. Every Leaf of the tree that has a content URL, at any depth, is
    in the page as a link: the text
    [<li class="file">...<a href="URL" target="_blank">KEY</a></li>] with
    the URL and the key exactly as the tree holds them, nothing escaped. *)
Theorem renderHTML_links_every_file (tree : value) (key url : string) :
  leaf_at tree key url ->
  occurs (file_item key url) (renderHTML tree).
Proof.
  induction 1 as [props key url Hin | props k sub key url Hin Hleaf IH].
  - destruct (in_split _ _ Hin) as [ps [qs ->]].
    rewrite renderHTML_object, render_loop_entry.
    change (String.eqb (typeof (VString url)) "string") with true.
    cbv iota. cbn [string_of].
    apply occurs_app_r, occurs_app_l, occurs_app_r, occurs_app_l, occurs_refl.
  - destruct (in_split _ _ Hin) as [ps [qs ->]].
    assert (Htype : String.eqb (typeof sub) "string" = false)
      by (inversion Hleaf; reflexivity).
    rewrite renderHTML_object, render_loop_entry, Htype.
    apply occurs_app_r, occurs_app_l, occurs_app_r, occurs_app_l.
    unfold folder_item. do 10 apply occurs_app_r. apply occurs_app_l. exact IH.
Qed.

Lemma renderHTML_links_every_file_witness :
  occurs (file_item "b.md" (raw "docs/b.md")) (renderHTML sample_tree).
Proof.
  apply (renderHTML_links_every_file sample_tree "b.md" (raw "docs/b.md")).
  apply (leaf_below _ "docs" (VObject [("b.md", VString (raw "docs/b.md"))])).
  - simpl. auto.
  - apply leaf_here. simpl. auto.
Defined.

Lemma renderHTML_null_as_empty (tree : value) :
  renderHTML (null_as_empty tree) = renderHTML tree.
Proof.
  induction tree as [s| |props IH] using value_induction; try reflexivity.
  cbn [null_as_empty renderHTML]. f_equal.
  generalize "<ul class='tree'>".
  induction IH as [|[k v] rest Hv _ IHrest]; intros html; simpl; [reflexivity|].
  simpl in Hv. destruct v as [u| |sub].
  - simpl. apply IHrest.
  - simpl. apply IHrest.
  - change (String.eqb (typeof (null_as_empty (VObject sub))) "string") with false.
    change (String.eqb (typeof (VObject sub)) "string") with false.
    cbv iota. rewrite Hv. apply IHrest.
Qed.

Lemma leaf_urls_null_as_empty (tree : value) :
  leaf_urls (null_as_empty tree) = leaf_urls tree.
Proof.
  induction tree as [s| |props IH] using value_induction; try reflexivity.
  simpl. induction IH as [|[k v] rest Hv _ IHrest]; simpl; [reflexivity|].
  rewrite IHrest. f_equal. simpl in Hv. destruct v; simpl in *; auto.
Qed.

Lemma folders_null_as_empty (tree : value) :
  count_null_leaves (null_as_empty tree) = 0
  /\ count_subtrees (null_as_empty tree)
     = count_subtrees tree + count_null_leaves tree.
Proof.
  induction tree as [s| |props IH] using value_induction;
    try (split; reflexivity).
  simpl. induction IH as [|[k v] rest Hv _ IHrest]; simpl; [split; reflexivity|].
  destruct IHrest as [Hnull Hsub]. simpl in Hv. destruct Hv as [Hvnull Hvsub].
  rewrite Hnull, Hsub.
  destruct v as [u| |sub]; simpl in *; split; lia.
Qed.

(** X11. The program does not tell a Leaf without content URL from an
    empty directory: replacing every such Leaf of a tree by an empty
    Subtree changes neither the page nor the statistics. *)
Theorem null_leaf_is_an_empty_folder
    (network : request -> fetch_result) (tree : value) :
  renderHTML (null_as_empty tree) = renderHTML tree
  /\ statistics network (null_as_empty tree) = statistics network tree.
Proof.
  split; [apply renderHTML_null_as_empty|].
  rewrite !statistics_stats_of. f_equal.
  destruct (folders_null_as_empty tree) as [Hnull Hsub].
  apply Analysis_eq; simpl; rewrite ?leaf_urls_null_as_empty; try reflexivity.
  lia.
Qed.

(** ** [loadTemplate] *)

Lemma startsWith_app (p b : string) : startsWith p (p ++ b) = true.
Proof.
  induction p as [|c p IH]; simpl; [reflexivity|].
  rewrite Ascii.eqb_refl. exact IH.
Qed.

Lemma startsWith_drop (p : string) :
  forall s, startsWith p s = true -> s = (p ++ drop (String.length p) s)%string.
Proof.
  induction p as [|c p IH]; intros s; simpl; [reflexivity|].
  destruct s as [|d s]; [discriminate|].
  intros H. apply andb_prop in H. destruct H as [Hc Hp].
  apply Ascii.eqb_eq in Hc. subst d. f_equal. apply IH. exact Hp.
Qed.

Lemma drop_app (p b : string) : drop (String.length p) (p ++ b) = b.
Proof. induction p as [|c p IH]; simpl; [reflexivity | exact IH]. Qed.

Lemma cut_sound (p : string) :
  forall s before after,
    cut p s = Some (before, after) -> s = (before ++ p ++ after)%string.
Proof.
  induction s as [|c s IH]; intros before after; simpl.
  - destruct (startsWith p EmptyString) eqn:Hp; [|discriminate].
    intros H. injection H as <- <-. simpl. apply startsWith_drop. exact Hp.
  - destruct (startsWith p (String c s)) eqn:Hp.
    + intros H. injection H as <- <-. simpl. apply startsWith_drop. exact Hp.
    + destruct (cut p s) as [[b0 a0]|]; [|discriminate].
      intros H. injection H as <- <-. simpl. f_equal. apply IH. reflexivity.
Qed.

Lemma cut_leftmost (p : string) :
  forall s before after,
    cut p s = Some (before, after) ->
    forall before' after',
      s = (before' ++ p ++ after')%string ->
      String.length before <= String.length before'.
Proof.
  induction s as [|c s IH]; intros before after; simpl.
  - destruct (startsWith p EmptyString); [|discriminate].
    intros H. injection H as <- _. intros. simpl. lia.
  - destruct (startsWith p (String c s)) eqn:Hp.
    + intros H. injection H as <- _. intros. simpl. lia.
    + destruct (cut p s) as [[b0 a0]|] eqn:Hcut; [|discriminate].
      intros H. injection H as <- <-. intros before' after' Hs.
      destruct before' as [|c' before'].
      * simpl in Hs. rewrite Hs, startsWith_app in Hp. discriminate.
      * simpl in Hs. injection Hs as _ Hs. simpl.
        apply le_n_S. exact (IH _ _ eq_refl _ _ Hs).
Qed.

Lemma cut_occurs (p after : string) :
  forall before, exists a b, cut p (before ++ p ++ after) = Some (a, b).
Proof.
  induction before as [|c before IH]; simpl.
  - destruct (p ++ after)%string eqn:Hs; simpl;
      rewrite <- ?Hs, startsWith_app; eauto.
  - destruct (startsWith p (String c (before ++ p ++ after))); [eauto|].
    destruct IH as [a [b ->]]. eauto.
Qed.

Lemma cut_none (p s : string) : ~ occurs p s -> cut p s = None.
Proof.
  intros Hno. destruct (cut p s) as [[a b]|] eqn:Hcut; [|reflexivity].
  exfalso. apply Hno. exists a, b. apply cut_sound. exact Hcut.
Qed.

Lemma string_app_split (x : string) :
  forall y x' y',
    (x ++ y)%string = (x' ++ y')%string ->
    String.length x <= String.length x' ->
    exists m, x' = (x ++ m)%string /\ y = (m ++ y')%string.
Proof.
  induction x as [|c x IH]; intros y x' y' Heq Hlen; simpl in *.
  - exists x'. auto.
  - destruct x' as [|c' x']; simpl in *; [lia|].
    injection Heq as -> Heq.
    destruct (IH _ _ _ Heq) as [m [-> ->]]; [lia|].
    exists m. auto.
Qed.

Lemma string_app_inj (p b b' : string) : (p ++ b)%string = (p ++ b')%string -> b = b'.
Proof.
  induction p as [|c p IH]; simpl; [auto|].
  intros H. injection H as H. auto.
Qed.

(** When the pattern has no occurrence that starts before the end of
    [before], the cut is made there. *)
Lemma cut_at (q : string) (z : ascii) (before after : string) :
  ~ occurs (q ++ String z EmptyString) (before ++ q) ->
  cut (q ++ String z EmptyString) (before ++ (q ++ String z EmptyString) ++ after)
  = Some (before, after).
Proof.
  intros Hno. set (p := (q ++ String z EmptyString)%string) in *.
  destruct (cut_occurs p after before) as [a0 [b0 Hcut]]. rewrite Hcut.
  pose proof (cut_sound _ _ _ _ Hcut) as Hs.
  pose proof (cut_leftmost _ _ _ _ Hcut before after eq_refl) as Hlen.
  symmetry in Hs.
  destruct (string_app_split _ _ _ _ Hs Hlen) as [m [Hbefore Hrest]].
  destruct m as [|c m].
  - rewrite string_app_nil_r in Hbefore. simpl in Hrest.
    apply string_app_inj in Hrest. subst. reflexivity.
  - exfalso. apply Hno. subst before.
    assert (Hrest' : (p ++ b0)%string
                     = ((String c m ++ q) ++ String z after)%string).
    { rewrite Hrest. unfold p. rewrite !string_app_assoc. reflexivity. }
    destruct (string_app_split _ _ _ _ Hrest') as [m2 [Hm2 _]].
    { unfold p. rewrite !length_append. simpl. lia. }
    exists a0, m2. rewrite string_app_assoc, Hm2. reflexivity.
Qed.

Lemma expand_verbatim (r matched before after : string) :
  has_dollar r = false -> expand r matched before after = r.
Proof.
  induction r as [|c r IH]; simpl; [reflexivity|].
  intros H. apply orb_false_elim in H. destruct H as [Hc Hr].
  rewrite Hc, (IH Hr). reflexivity.
Qed.

Lemma replace_at (q : string) (z : ascii) (r before after : string) :
  has_dollar r = false ->
  ~ occurs (q ++ String z EmptyString) (before ++ q) ->
  replace (q ++ String z EmptyString) r
    (before ++ (q ++ String z EmptyString) ++ after)
  = (before ++ r ++ after)%string.
Proof.
  intros Hr Hno. unfold replace. rewrite (cut_at q z before after Hno).
  rewrite expand_verbatim by exact Hr. reflexivity.
Qed.

(** X12. [loadTemplate] puts the content at the leftmost [{{content}}] of
    the template, and then the analysis at the leftmost [{{analysis}}] of
    the text so obtained, be it in the template or in the content just
    inserted; both come out as they are when they hold no [$]. *)
Theorem loadTemplate_substitutes
    (readTextFile : string -> thrown + string)
    (templatePath content analysis : string) (w : world)
    (a b x y : string) :
  readTextFile templatePath = inr (a ++ "{{content}}" ++ b)%string ->
  ~ occurs "{{content}}" (a ++ "{{content}") ->
  (a ++ content ++ b)%string = (x ++ "{{analysis}}" ++ y)%string ->
  ~ occurs "{{analysis}}" (x ++ "{{analysis}") ->
  has_dollar content = false ->
  has_dollar analysis = false ->
  loadTemplate readTextFile templatePath content analysis w
  = (Returned (x ++ analysis ++ y)%string, w).
Proof.
  intros Hread Hcontent Hmid Hanalysis Hc Ha.
  unfold loadTemplate, bind, await. rewrite Hread. unfold ret. cbv beta iota.
  pose proof (replace_at "{{content}" "}" content a b Hc Hcontent) as H1.
  change ("{{content}" ++ "}")%string with "{{content}}" in H1.
  pose proof (replace_at "{{analysis}" "}" analysis x y Ha Hanalysis) as H2.
  change ("{{analysis}" ++ "}")%string with "{{analysis}}" in H2.
  rewrite H1, Hmid, H2. reflexivity.
Qed.

(** X13. When the template holds neither placeholder, [loadTemplate]
    returns it as it is: the content and the analysis are dropped. When
    the template cannot be read, the exception is thrown on. *)
Theorem loadTemplate_without_placeholders
    (readTextFile : string -> thrown + string)
    (templatePath content analysis : string) (w : world) :
  (forall template,
      readTextFile templatePath = inr template ->
      ~ occurs "{{content}}" template ->
      ~ occurs "{{analysis}}" template ->
      loadTemplate readTextFile templatePath content analysis w
      = (Returned template, w))
  /\ (forall e,
         readTextFile templatePath = inl e ->
         loadTemplate readTextFile templatePath content analysis w = (Thrown e, w)).
Proof.
  split.
  - intros template Hread Hc Ha. unfold loadTemplate, bind, await. rewrite Hread.
    unfold ret. cbv beta iota. unfold replace.
    rewrite (cut_none _ _ Hc), (cut_none _ _ Ha). reflexivity.
  - intros e Hread. unfold loadTemplate, bind. rewrite Hread. reflexivity.
Qed.

Lemma not_occurs_cut (p s : string) : cut p s = None -> ~ occurs p s.
Proof.
  intros Hcut [before [after ->]].
  destruct (cut_occurs p after before) as [a [b H]]. congruence.
Qed.

Lemma loadTemplate_substitutes_witness :
  loadTemplate sample_files "template.html" (renderHTML sample_tree)
    "<div>2 files</div>" world0
  = (Returned ("<body>" ++ renderHTML sample_tree ++ "<hr>"
               ++ "<div>2 files</div>" ++ "</body>")%string, world0).
Proof.
  apply (loadTemplate_substitutes sample_files "template.html"
           (renderHTML sample_tree) "<div>2 files</div>" world0
           "<body>" "<hr>{{analysis}}</body>"
           ("<body>" ++ renderHTML sample_tree ++ "<hr>")%string "</body>").
  - reflexivity.
  - apply not_occurs_cut. vm_compute. reflexivity.
  - vm_compute. reflexivity.
  - apply not_occurs_cut. vm_compute. reflexivity.
  - vm_compute. reflexivity.
  - vm_compute. reflexivity.
Defined.

(** ** The start of [main] *)

Lemma no_slash_app (a b : string) :
  no_slash (a ++ b) = no_slash a && no_slash b.
Proof.
  induction a as [|c a IH]; simpl; [reflexivity|].
  rewrite IH. apply andb_assoc.
Qed.

Lemma split_on_no_slash (s : string) :
  forall piece, no_slash s = true -> split_on "/" piece s = [(piece ++ s)%string].
Proof.
  induction s as [|c s IH]; intros piece; simpl.
  - rewrite string_app_nil_r. reflexivity.
  - destruct (Ascii.eqb c "/"); simpl; [discriminate|].
    intros H. rewrite (IH _ H), string_app_assoc. reflexivity.
Qed.

Lemma split_on_first (o : string) :
  forall piece r,
    no_slash o = true ->
    split_on "/" piece (o ++ String "/" r)
    = (piece ++ o)%string :: split_on "/" EmptyString r.
Proof.
  induction o as [|c o IH]; intros piece r; simpl.
  - rewrite string_app_nil_r. reflexivity.
  - destruct (Ascii.eqb c "/"); simpl; [discriminate|].
    intros H. rewrite (IH _ _ H), string_app_assoc. reflexivity.
Qed.

Lemma split_on_cases (s : string) :
  no_slash s = true
  \/ exists o r, s = (o ++ String "/" r)%string /\ no_slash o = true.
Proof.
  induction s as [|c s IH]; simpl; [left; reflexivity|].
  destruct (Ascii.eqb_spec c "/") as [-> | Hne]; simpl.
  - right. exists EmptyString, s. split; reflexivity.
  - destruct IH as [H | [o [r [-> Ho]]]]; [left; exact H|].
    right. exists (String c o), r. split; [reflexivity|].
    simpl. apply Ascii.eqb_neq in Hne. rewrite Hne. exact Ho.
Qed.

Lemma split_on_not_nil (s piece : string) : split_on "/" piece s <> [].
Proof.
  revert piece. induction s as [|c s IH]; intros piece; simpl; [discriminate|].
  destruct (Ascii.eqb c "/"); [discriminate | apply IH].
Qed.

(** [split("/")] gives two parts exactly for the texts with one slash. *)
Lemma split_on_two (s owner repo : string) :
  split_on "/" EmptyString s = [owner; repo]
  <-> s = (owner ++ String "/" repo)%string
      /\ no_slash owner = true /\ no_slash repo = true.
Proof.
  split.
  - intros Hsplit. destruct (split_on_cases s) as [Hs | [o [r [-> Ho]]]].
    + rewrite (split_on_no_slash s _ Hs) in Hsplit. discriminate.
    + rewrite (split_on_first o _ r Ho) in Hsplit. simpl in Hsplit.
      injection Hsplit as <- Hr.
      destruct (split_on_cases r) as [Hr' | [o' [r' [-> Ho']]]].
      * rewrite (split_on_no_slash r _ Hr') in Hr. simpl in Hr.
        injection Hr as <-. auto.
      * rewrite (split_on_first o' _ r' Ho') in Hr.
        injection Hr as _ Hr. destruct (split_on_not_nil _ _ Hr).
  - intros [-> [Ho Hr]].
    rewrite (split_on_first owner _ repo Ho), (split_on_no_slash repo _ Hr).
    reflexivity.
Qed.

(** X14. The start of [main] hands a token and a repository to the
    traversal exactly when [--github] is given, [load] succeeds, a
    non-empty token is found, in the [.env] file first and in the
    environment otherwise, and the argument holds exactly one slash; the
    owner and the repository are the texts around the slash, and either
    may be empty. The console is left as it was. *)
Theorem main_setup_ready (inv : invocation) (w w' : world)
    (token owner repo : string) :
  main_setup inv w = (Returned (Ready token owner repo), w')
  <-> w' = w
      /\ github_given inv = true
      /\ (exists env_GITHUB_TOKEN,
             dotenv inv = inr env_GITHUB_TOKEN
             /\ (if truthy env_GITHUB_TOKEN then env_GITHUB_TOKEN
                 else environment inv) = Some token)
      /\ token <> EmptyString
      /\ github_text inv = (owner ++ String "/" repo)%string
      /\ no_slash owner = true /\ no_slash repo = true.
Proof.
  unfold main_setup. split.
  - destruct (github_given inv); [|discriminate]. cbv beta iota delta [negb].
    destruct (dotenv inv) as [message | env_token]; [discriminate|].
    set (chosen := if truthy env_token then env_token else environment inv).
    destruct (truthy chosen) eqn:Hchosen; [|discriminate].
    cbv beta iota delta [negb].
    destruct (split_on "/" EmptyString (github_text inv))
      as [|o [|r [|x rest]]] eqn:Hsplit; try discriminate.
    simpl. unfold ret. intros H. injection H as <- <- <- <-.
    apply split_on_two in Hsplit. destruct Hsplit as [Htext [Ho Hr]].
    split; [reflexivity|]. split; [reflexivity|].
    destruct chosen as [[|c t]|] eqn:Hc; try discriminate.
    split; [exists env_token; split; [reflexivity | exact Hc]|].
    split; [discriminate | auto].
  - intros [-> [Hgiven [[env_token [Henv Hchosen]] [Htoken [Htext [Ho Hr]]]]]].
    rewrite Hgiven, Henv. cbv beta iota delta [negb]. rewrite Hchosen.
    destruct token as [|c t]; [congruence|]. cbv beta iota delta [negb truthy].
    rewrite (proj2 (split_on_two _ owner repo) (conj Htext (conj Ho Hr))).
    reflexivity.
Qed.

(** The start of [main] never throws. When it does not hand over to
    the traversal it exits with the code 1 after writing exactly one line
    to the console. *)
Theorem main_setup_exit (inv : invocation) (w : world) :
  (exists token owner repo,
      main_setup inv w = (Returned (Ready token owner repo), w))
  \/ (exists line,
         main_setup inv w
         = (Returned (Exit 1),
            {| requests := requests w; console := console w ++ [line] |})).
Proof.
  unfold main_setup.
  destruct (github_given inv); [|right; eexists; reflexivity].
  destruct (dotenv inv) as [message | env_token]; [right; eexists; reflexivity|].
  cbv beta iota delta [negb].
  destruct (truthy (if truthy env_token then env_token else environment inv));
    [|right; eexists; reflexivity].
  cbv beta iota delta [negb].
  destruct (length (split_on "/" EmptyString (github_text inv)) =? 2)%nat;
    [left; eexists; eexists; eexists; reflexivity | right; eexists; reflexivity].
Qed.

(** ** The core of [main] *)

(** X15. When the traversal returns a tree, the core of [main] returns
    that tree with its statistics, whatever the fetches of the bodies do;
    when the traversal throws, the core throws the same exception, having
    requested no body and written nothing to the console. *)
Theorem traverse_then_analyze_outcome
    (network : request -> fetch_result) (fuel : nat) (token owner repo : string)
    (w : world) :
  (forall tree,
      tree_built network fuel token owner repo EmptyString = Returned tree ->
      exists stats w',
        traverse_then_analyze network fuel token owner repo w
        = (Returned (tree, stats), w')
        /\ statistics network (VObject tree) = Some stats)
  /\ (forall e,
         tree_built network fuel token owner repo EmptyString = Thrown e ->
         traverse_then_analyze network fuel token owner repo w
         = (Thrown e,
            {| requests := requests w
                           ++ queries network fuel token owner repo EmptyString;
               console := console w |})).
Proof.
  unfold traverse_then_analyze, bind. rewrite traverseRepository_run. split.
  - intros tree ->. rewrite analyzeRepository_run.
    eexists; eexists. split; [reflexivity | apply statistics_stats_of].
  - intros e ->. reflexivity.
Qed.

(** ** The page and the template *)

Lemma has_dollar_app (a b : string) :
  has_dollar (a ++ b) = has_dollar a || has_dollar b.
Proof.
  induction a as [|c a IH]; simpl; [reflexivity|].
  rewrite IH. apply orb_assoc.
Qed.

Lemma render_loop_has_dollar (props : Record_) :
  Forall (fun p =>
            Forall (fun s => has_dollar s = false) (tree_strings (snd p)) ->
            has_dollar (renderHTML (snd p)) = false) props ->
  Forall (fun s => has_dollar s = false) (tree_strings (VObject props)) ->
  forall html,
    has_dollar html = false ->
    has_dollar (render_loop renderHTML props html) = false.
Proof.
  induction 1 as [|[key v] rest Hv _ IH]; intros Hall html Hhtml; [exact Hhtml|].
  simpl in Hall. inversion Hall as [|? ? Hkey Hrest]; subst.
  apply Forall_app in Hrest. destruct Hrest as [Hvs Hrest].
  simpl in Hv. cbn [render_loop].
  destruct v as [u| |sub].
  - change (String.eqb (typeof (VString u)) "string") with true. cbv iota.
    apply (IH Hrest). cbn [string_of].
    inversion Hvs as [|? ? Hu _]; subst.
    unfold file_item. rewrite !has_dollar_app, Hhtml, Hkey, Hu. reflexivity.
  - change (String.eqb (typeof VNull) "string") with false. cbv iota.
    apply (IH Hrest).
    unfold folder_item. rewrite !has_dollar_app, Hhtml, Hkey. reflexivity.
  - change (String.eqb (typeof (VObject sub)) "string") with false. cbv iota.
    apply (IH Hrest).
    unfold folder_item. rewrite !has_dollar_app, Hhtml, Hkey, (Hv Hvs). reflexivity.
Qed.

(** X16. When no key and no content URL of the tree holds a [$], the page
    holds none either, so that [loadTemplate] inserts it as it is. *)
Theorem renderHTML_without_dollar (tree : value) :
  Forall (fun s => has_dollar s = false) (tree_strings tree) ->
  has_dollar (renderHTML tree) = false.
Proof.
  induction tree as [s| |props IH] using value_induction; try reflexivity.
  intros Hall. cbn [renderHTML]. rewrite has_dollar_app.
  rewrite (render_loop_has_dollar props IH Hall); reflexivity.
Qed.

Lemma renderHTML_without_dollar_witness :
  has_dollar (renderHTML sample_tree) = false.
Proof.
  apply (renderHTML_without_dollar sample_tree).
  vm_compute. repeat constructor.
Defined.
